(** * surmon.me.native: the archive filter store and the animated modal

    A shallow embedding of the two pieces of state logic of the
    repository:

    - [Filter]: the mobx [Store] of [src/components/archive/filter.tsx]
      (selected filter type, per-type values, the two list loads);
    - [Modal]: the [BetterModal] component of
      [src/components/common/modal.tsx] (the [modalVisible] flag and the
      animated mask opacity), run against a small model of the three
      things that call into it: the owner changing [props.visible], the
      platform modal reporting [onShow], and the animation clock.

    - [FilterHistory]: how to read a history of store events;
    - [FilterView]: the [ArchiveFilter] component of the same file (icon
      names, the two lists, the buttons) and the screen it makes with
      the modal;
    - [ModalView]: further notions for the modal.

    Definitions come first; the properties follow in [FilterFacts],
    [ModalFacts], [FilterHistoryFacts], [FilterViewFacts], [ModalMore]
    and [ScreenFacts]. *)

From Stdlib Require Import Bool List String ZArith QArith Lia Lqa.
Import ListNotations.

(* ===================================================================== *)
(** * The archive filter store *)
(* ===================================================================== *)

Module Filter.

(** [export enum EFilterType]. *)
Inductive EFilterType : Type := Tag | Category | Search.

Definition EFilterType_eqb (a b : EFilterType) : bool :=
  match a, b with
  | Tag, Tag | Category, Category | Search, Search => true
  | _, _ => false
  end.

(** An HTTP request as [fetch.get(path, params)] issues it. *)
Inductive HttpMethod : Type := GET.

Record request : Type := {
  method : HttpMethod;
  path : string;
  params : list (string * Z)
}.

Section Store.

(** [ITag] and [ICategory] are declared in [@app/types/business] and the
    pagination block in [@app/types/http]; the store never looks inside
    them, so they are parameters here. *)
Context {ITag ICategory Pagination : Type}.

(** [type TFilterValue = ITag | ICategory | string]. *)
Inductive TFilterValue : Type :=
| OfTag (t : ITag)
| OfCategory (c : ICategory)
| OfString (s : string).

(** [interface IFilterValues]: one slot per filter type, [null] being
    [None].  [updateActiveFilter] writes through [value as any], so at run
    time every slot holds a [TFilterValue] or [null]; [fits] is the typing
    the interface declares. *)
Record IFilterValues : Type := {
  slotTag : option TFilterValue;
  slotCategory : option TFilterValue;
  slotSearch : option TFilterValue
}.

Definition fits (type : EFilterType) (value : TFilterValue) : bool :=
  match type, value with
  | Tag, OfTag _ | Category, OfCategory _ | Search, OfString _ => true
  | _, _ => false
  end.

(** [filterValues[type]]. *)
Definition slot (type : EFilterType) (vs : IFilterValues) : option TFilterValue :=
  match type with
  | Tag => slotTag vs
  | Category => slotCategory vs
  | Search => slotSearch vs
  end.

(** [filterValues[type] = value]. *)
Definition setSlot (type : EFilterType) (value : TFilterValue) (vs : IFilterValues)
  : IFilterValues :=
  match type with
  | Tag => {| slotTag := Some value; slotCategory := slotCategory vs; slotSearch := slotSearch vs |}
  | Category => {| slotTag := slotTag vs; slotCategory := Some value; slotSearch := slotSearch vs |}
  | Search => {| slotTag := slotTag vs; slotCategory := slotCategory vs; slotSearch := Some value |}
  end.

(** The observable fields of [class Store]. *)
Record Store : Type := {
  filterActive : bool;
  filterType : EFilterType;
  filterValues : IFilterValues;
  tags : list ITag;
  categories : list ICategory;
  modalVisible : bool
}.

(** The field initialisers of the class. *)
Definition initial : Store := {|
  filterActive := false;
  filterType := Category;
  filterValues := {| slotTag := None; slotCategory := None; slotSearch := None |};
  tags := [];
  categories := [];
  modalVisible := false
|}.

(** [get isActiveTagOrCategoryFilter]. *)
Definition isActiveTagOrCategoryFilter (s : Store) : bool :=
  filterActive s
  && existsb (EFilterType_eqb (filterType s)) [Tag; Category].

(** [get filterValue]: three [if]s on [filterType], each returning the
    slot of that type; falling through all of them returns [undefined].
    [null] and [undefined] are both [None]. *)
Definition filterValue (s : Store) : option TFilterValue :=
  if EFilterType_eqb (filterType s) Search then slot Search (filterValues s)
  else if EFilterType_eqb (filterType s) Tag then slot Tag (filterValues s)
  else if EFilterType_eqb (filterType s) Category then slot Category (filterValues s)
  else None.

(** [updateActiveFilter(type, value)]. *)
Definition updateActiveFilter (type : EFilterType) (value : TFilterValue) (s : Store)
  : Store := {|
  filterActive := true;
  filterType := type;
  filterValues := setSlot type value (filterValues s);
  tags := tags s;
  categories := categories s;
  modalVisible := modalVisible s
|}.

(** [clearActiveFilter()]. *)
Definition clearActiveFilter (s : Store) : Store := {|
  filterActive := false;
  filterType := filterType s;
  filterValues := filterValues s;
  tags := tags s;
  categories := categories s;
  modalVisible := modalVisible s
|}.

(** [updateVisibleState(visible)]. *)
Definition updateVisibleState (visible : bool) (s : Store) : Store := {|
  filterActive := filterActive s;
  filterType := filterType s;
  filterValues := filterValues s;
  tags := tags s;
  categories := categories s;
  modalVisible := visible
|}.

(** The response types of [@app/types/http], with the fields the store
    reads: [result.result.data]. *)
Record IHttpResultPaginate (A : Type) : Type := {
  data : A;
  pagination : Pagination
}.

Record THttpSuccessResponse (A : Type) : Type := {
  status : string;
  message : string;
  result : A
}.

(** How the promise returned by [fetch.get] settles. *)
Inductive settled (A : Type) : Type :=
| Fulfilled (response : THttpSuccessResponse (IHttpResultPaginate A))
| Rejected (reason : string).

(** What a [.then(onFulfilled)] chain leaves behind once its promise has
    settled: the handler ran, or the rejection went through the chain
    with nothing to catch it. *)
Inductive outcome : Type := Handled | UnhandledRejection (reason : string).

(** [fetchTags()]: the request, and the [.then] chain hung on it.  The
    chain has one argument, the fulfilment handler. *)
Definition fetchTags_request : request :=
  {| method := GET; path := "/tag"; params := [("per_page"%string, 666%Z)] |}.

Definition fetchTags_then (r : settled (list ITag)) (s : Store) : Store * outcome :=
  match r with
  | Fulfilled _ response =>
      ({| filterActive := filterActive s;
          filterType := filterType s;
          filterValues := filterValues s;
          tags := data _ (result _ response);
          categories := categories s;
          modalVisible := modalVisible s |}, Handled)
  | Rejected _ reason => (s, UnhandledRejection reason)
  end.

(** [fetchCategories()]. *)
Definition fetchCategories_request : request :=
  {| method := GET; path := "/category"; params := [] |}.

Definition fetchCategories_then (r : settled (list ICategory)) (s : Store)
  : Store * outcome :=
  match r with
  | Fulfilled _ response =>
      ({| filterActive := filterActive s;
          filterType := filterType s;
          filterValues := filterValues s;
          tags := tags s;
          categories := data _ (result _ response);
          modalVisible := modalVisible s |}, Handled)
  | Rejected _ reason => (s, UnhandledRejection reason)
  end.

(** [constructor()]: the initialised fields, and the requests sent, in
    order. *)
Definition constructor : Store * list request :=
  (initial, [fetchTags_request; fetchCategories_request]).

(** Everything that can happen to the store after construction: one of
    its three actions is called, or one of the two promises settles. *)
Inductive event : Type :=
| UpdateActiveFilter (type : EFilterType) (value : TFilterValue)
| ClearActiveFilter
| UpdateVisibleState (visible : bool)
| TagsSettled (r : settled (list ITag))
| CategoriesSettled (r : settled (list ICategory)).

(** One event: the new store, the requests it sent and the rejections it
    left unhandled. *)
Definition step (e : event) (s : Store) : Store * list request * list outcome :=
  match e with
  | UpdateActiveFilter type value => (updateActiveFilter type value s, [], [])
  | ClearActiveFilter => (clearActiveFilter s, [], [])
  | UpdateVisibleState visible => (updateVisibleState visible s, [], [])
  | TagsSettled r =>
      let '(s', o) := fetchTags_then r s in (s', [], [o])
  | CategoriesSettled r =>
      let '(s', o) := fetchCategories_then r s in (s', [], [o])
  end.

(** A whole life of the store: construction, then the events in order.
    The requests sent are collected along the way. *)
Fixpoint run_from (es : list event) (s : Store) (sent : list request)
  : Store * list request :=
  match es with
  | [] => (s, sent)
  | e :: es' =>
      let '(s', reqs, _) := step e s in run_from es' s' (sent ++ reqs)
  end.

Definition run (es : list event) : Store * list request :=
  run_from es (fst constructor) (snd constructor).

Definition tags_fulfilled (e : event) : bool :=
  match e with TagsSettled (Fulfilled _ _) => true | _ => false end.

Definition categories_fulfilled (e : event) : bool :=
  match e with CategoriesSettled (Fulfilled _ _) => true | _ => false end.

End Store.

Arguments TFilterValue : clear implicits.
Arguments IFilterValues : clear implicits.
Arguments Store : clear implicits.
Arguments event : clear implicits.
Arguments settled : clear implicits.

End Filter.

(* ===================================================================== *)
(** * The animated modal *)
(* ===================================================================== *)

Module Modal.

Local Open Scope Q_scope.

(** [interface IModalProps], the two fields the visibility logic reads.
    ([title], [extra], [top], [children] and [onClose] only reach the
    rendered markup.)  [opacity?: number] is [None] when the owner leaves
    it out; its numbers are taken as exact rationals. *)
Record IModalProps : Type := {
  visible : bool;
  opacity : option Q
}.

(** JavaScript's [a || b] on an optional number: [a] when it is truthy
    ([undefined] and zero are not), [b] otherwise. *)
Definition truthy (a : option Q) : bool :=
  match a with
  | None => false
  | Some q => negb (Qeq_bool q 0)
  end.

Definition js_or (a : option Q) (b : Q) : Q :=
  match a with
  | Some q => if truthy a then q else b
  | None => b
  end.

(** The completion callbacks the component ever hands to [start]: there
    is one, the arrow function of [handleVisibleChange],
    [() => { this.updateVisible(false) }].  It takes no argument, so it
    does not see the [{finished}] flag the animation passes. *)
Inductive EndCallback : Type := UnmountAfterFade.

(** A running [Animated.timing]: where it started, where it goes, how
    long it lasts, how many time units have gone by, and the callback
    given to [start]. *)
Record TimingAnimation : Type := {
  fromValue : Q;
  toValue : Q;
  duration : nat;
  elapsed : nat;
  onEnd : option EndCallback
}.

(** An [Animated.Value]: the current number and the animation driving
    it, if any. *)
Record AnimatedValue : Type := {
  value : Q;
  animation : option TimingAnimation
}.

(** The component: its props and its two observable fields. *)
Record BetterModal : Type := {
  props : IModalProps;
  modalVisible : bool;
  maskOpacity : AnimatedValue
}.

Definition withProps (p : IModalProps) (m : BetterModal) : BetterModal :=
  {| props := p; modalVisible := modalVisible m; maskOpacity := maskOpacity m |}.

Definition withMask (v : AnimatedValue) (m : BetterModal) : BetterModal :=
  {| props := props m; modalVisible := modalVisible m; maskOpacity := v |}.

(** [updateVisible(visible)]. *)
Definition updateVisible (visible : bool) (m : BetterModal) : BetterModal :=
  {| props := props m; modalVisible := visible; maskOpacity := maskOpacity m |}.

(** [get propOpacity]: [this.props.opacity || 0.5]. *)
Definition propOpacity (m : BetterModal) : Q :=
  js_or (opacity (props m)) (1 # 2).

Definition call (cb : EndCallback) (m : BetterModal) : BetterModal :=
  match cb with
  | UnmountAfterFade => updateVisible false m
  end.

Definition callOpt (cb : option EndCallback) (m : BetterModal) : BetterModal :=
  match cb with
  | Some c => call c m
  | None => m
  end.

(** What [Animated.Value.animate] does to the animation it replaces:
    [stop()] ends it where it stands and calls its callback with
    [{finished: false}]. *)
Definition stopAnimation (m : BetterModal) : BetterModal :=
  match animation (maskOpacity m) with
  | None => m
  | Some a =>
      callOpt (onEnd a)
        (withMask {| value := value (maskOpacity m); animation := None |} m)
  end.

(** [Animated.timing(v, {toValue, duration}).start(callback)]: the
    animation in flight is stopped, the new one starts from the current
    number. *)
Definition timingStart (to : Q) (d : nat) (callback : option EndCallback)
  (m : BetterModal) : BetterModal :=
  let m' := stopAnimation m in
  let now := value (maskOpacity m') in
  withMask {| value := now;
              animation := Some {| fromValue := now; toValue := to; duration := d;
                                   elapsed := 0; onEnd := callback |} |} m'.

(** [updateMaskVisible(visible, callback?)]. *)
Definition updateMaskVisible (visible : bool) (callback : option EndCallback)
  (m : BetterModal) : BetterModal :=
  timingStart (if visible then propOpacity m else 0) 88 callback m.

(** [handleVisibleChange(visible)]. *)
Definition handleVisibleChange (visible : bool) (m : BetterModal) : BetterModal :=
  if visible then updateVisible true m
  else updateMaskVisible false (Some UnmountAfterFade) m.

(** The [onShow] handler given to [<Modal>] in [render]. *)
Definition onShow (m : BetterModal) : BetterModal :=
  updateMaskVisible true None m.

(** [constructor(props)]: the field initialisers, then the reaction on
    [props.visible], which [fireImmediately] runs once on the spot. *)
Definition constructor (p : IModalProps) : BetterModal :=
  handleVisibleChange (visible p)
    {| props := p; modalVisible := false;
       maskOpacity := {| value := 0; animation := None |} |}.

(** The reaction: the owner hands in a new [visible]; the effect runs
    when the value differs from the one seen last. *)
Definition receiveVisible (b : bool) (m : BetterModal) : BetterModal :=
  let m' := withProps {| visible := b; opacity := opacity (props m) |} m in
  if Bool.eqb b (visible (props m)) then m' else handleVisibleChange b m'.

Section Clock.

(** The easing curve of the timing animation, from the fraction of the
    duration gone by to the fraction of the way covered.  It belongs to
    the animation library; the component leaves it at its default. *)
Variable easing : Q -> Q.

(** One time unit of animation.  Before the end the number is
    interpolated along the easing curve; at the end it is the target,
    the animation is gone and its callback is called (with
    [{finished: true}]). *)
Definition frame (m : BetterModal) : BetterModal :=
  match animation (maskOpacity m) with
  | None => m
  | Some a =>
      let k := S (elapsed a) in
      if (duration a <=? k)%nat then
        callOpt (onEnd a)
          (withMask {| value := toValue a; animation := None |} m)
      else
        withMask
          {| value :=
               Qred (fromValue a
                     + easing (inject_Z (Z.of_nat k) / inject_Z (Z.of_nat (duration a)))
                       * (toValue a - fromValue a));
             animation :=
               Some {| fromValue := fromValue a; toValue := toValue a;
                       duration := duration a; elapsed := k; onEnd := onEnd a |} |}
          m
  end.

(** The platform [<Modal visible={this.modalVisible} onShow=...>]: it is
    hidden, or being presented with [onShow] still to come, or shown. *)
Inductive NativeModal : Type := Hidden | Presenting | Shown.

(** The component in its surroundings, with a clock counting the time
    units gone by. *)
Record World : Type := {
  self : BetterModal;
  presented : NativeModal;
  clock : nat
}.

(** After every handler the component renders and the platform modal
    follows [modalVisible]: a hidden one starts presenting, a visible one
    is dismissed. *)
Definition render (before : NativeModal) (m : BetterModal) : NativeModal :=
  if modalVisible m then
    match before with
    | Hidden => Presenting
    | other => other
    end
  else Hidden.

Inductive event : Type :=
| SetVisible (b : bool)   (* the owner renders the modal with [visible = b] *)
| OnShow                  (* the platform modal has finished presenting *)
| Frame.                  (* one time unit passes *)

(** The handler an event calls, and the platform modal following the
    [modalVisible] it leaves.  [OnShow] can only come from a modal being
    presented. *)
Definition handle (e : event) (w : World) : option World :=
  match e with
  | SetVisible b =>
      let m := receiveVisible b (self w) in
      Some {| self := m; presented := render (presented w) m; clock := clock w |}
  | OnShow =>
      match presented w with
      | Presenting =>
          let m := onShow (self w) in
          Some {| self := m; presented := render Shown m; clock := clock w |}
      | _ => None
      end
  | Frame =>
      let m := frame (self w) in
      Some {| self := m; presented := render (presented w) m; clock := S (clock w) |}
  end.

(** The mask's [Animated.View] is a child of
    [<Modal visible={this.modalVisible}>] in [render]: it is there only
    while [modalVisible] is true.  When a handler has turned
    [modalVisible] from true to false the view is unmounted with the
    rest of the modal's content; [maskOpacity] loses its only user and
    is detached, which stops the animation in flight (its callback is
    called with [{finished: false}]) and leaves the number where it
    stands. *)
Definition rerender (before m : BetterModal) : BetterModal :=
  if modalVisible before && negb (modalVisible m) then stopAnimation m else m.

Definition rerendered (before after : World) : World :=
  {| self := rerender (self before) (self after);
     presented := presented after;
     clock := clock after |}.

(** One event: its handler, then the render the handler causes. *)
Definition step (e : event) (w : World) : option World :=
  match handle e w with
  | Some w' => Some (rerendered w w')
  | None => None
  end.

Fixpoint run (es : list event) (w : World) : option World :=
  match es with
  | [] => Some w
  | e :: es' =>
      match step e w with
      | Some w' => run es' w'
      | None => None
      end
  end.

(** The component right after construction. *)
Definition mount (p : IModalProps) : World :=
  let m := constructor p in
  {| self := m; presented := render Hidden m; clock := 0 |}.

End Clock.

(** [n] time units in a row. *)
Definition frames (n : nat) : list event := repeat Frame n.

(** Nothing is left to happen by itself: no animation in flight and no
    [onShow] to come. *)
Definition stable (w : World) : bool :=
  match animation (maskOpacity (self w)), presented w with
  | None, Hidden | None, Shown => true
  | _, _ => false
  end.

(** The animation in flight is one whose end unmounts the modal. *)
Definition unmountPending (m : BetterModal) : bool :=
  match animation (maskOpacity m) with
  | Some a => match onEnd a with Some _ => true | None => false end
  | None => false
  end.

(** The event starts an animation while another one with an unmount
    callback is still in flight (and so stops it). *)
Definition interrupts (e : event) (w : World) : bool :=
  match e with
  | SetVisible b =>
      negb b && visible (props (self w)) && unmountPending (self w)
  | OnShow => unmountPending (self w)
  | Frame => false
  end.

(** A run in which no fade-out is ever interrupted. *)
Fixpoint calm (easing : Q -> Q) (es : list event) (w : World) : bool :=
  match es with
  | [] => true
  | e :: es' =>
      negb (interrupts e w)
      && match step easing e w with
         | Some w' => calm easing es' w'
         | None => true
         end
  end.

(** Only [OnShow] and [Frame]: the owner leaves [visible] alone. *)
Definition untouched (es : list event) : bool :=
  forallb (fun e => match e with SetVisible _ => false | _ => true end) es.

(** The linear easing curve. *)
Definition linear (x : Q) : Q := x.

(** Every animation the component starts lasts 88 time units, and the
    only one that carries a callback is the fade-out, which goes to 0. *)
Definition animation_ok (a : TimingAnimation) : Prop :=
  duration a = 88%nat
  /\ (elapsed a < 88)%nat
  /\ (onEnd a <> None -> toValue a = 0).

(** The platform modal follows [modalVisible], and the animation in
    flight is one of the component's. *)
Definition consistent (w : World) : Prop :=
  (forall a, animation (maskOpacity (self w)) = Some a -> animation_ok a)
  /\ (presented w = Hidden <-> modalVisible (self w) = false).

(** Once [visible] is false the modal is unmounted or about to be. *)
Definition closing (w : World) : Prop :=
  visible (props (self w)) = false ->
  modalVisible (self w) = false \/ unmountPending (self w) = true.

(** An unmounted modal has a fully transparent mask that stays so. *)
Definition dark (w : World) : Prop :=
  modalVisible (self w) = false ->
  value (maskOpacity (self w)) == 0
  /\ (forall a, animation (maskOpacity (self w)) = Some a ->
        fromValue a == 0 /\ toValue a == 0).

(** Mounted, and nothing in flight that would unmount. *)
Definition staysMounted (w : World) : Prop :=
  modalVisible (self w) = true /\ unmountPending (self w) = false.

(** Closed and at rest: unmounted, fully transparent, nothing in flight,
    the owner asking for nothing. *)
Definition resting (w : World) : Prop :=
  visible (props (self w)) = false
  /\ modalVisible (self w) = false
  /\ maskOpacity (self w) = {| value := 0; animation := None |}
  /\ presented w = Hidden.

(** The fraction of an 88-unit animation gone by after [k] units, as
    [frame] hands it to the easing curve. *)
Definition progress (k : nat) : Q :=
  inject_Z (Z.of_nat k) / inject_Z (Z.of_nat 88).

End Modal.

(* ===================================================================== *)
(** * Reading a history of store events *)
(* ===================================================================== *)

Module FilterHistory.

Import Filter.

Section History.

Context {ITag ICategory Pagination : Type}.

Abbreviation event := (Filter.event ITag ICategory Pagination).
Abbreviation TFilterValue := (Filter.TFilterValue ITag ICategory).

(** The latest event of a history for which [pick] has an answer. *)
Fixpoint latest {A : Type} (pick : event -> option A) (es : list event) : option A :=
  match es with
  | [] => None
  | e :: es' =>
      match latest pick es' with
      | Some a => Some a
      | None => pick e
      end
  end.

(** The selection an event makes, if it makes one. *)
Definition selection (e : event) : option (EFilterType * TFilterValue) :=
  match e with
  | UpdateActiveFilter type value => Some (type, value)
  | _ => None
  end.

(** The value an event selects for [type]. *)
Definition selectionFor (type : EFilterType) (e : event) : option TFilterValue :=
  match e with
  | UpdateActiveFilter t value => if EFilterType_eqb t type then Some value else None
  | _ => None
  end.

(** Whether an event switches the filter on or off. *)
Definition switch (e : event) : option bool :=
  match e with
  | UpdateActiveFilter _ _ => Some true
  | ClearActiveFilter => Some false
  | _ => None
  end.

(** The list a fulfilled load delivers. *)
Definition tagsDelivered (e : event) : option (list ITag) :=
  match e with
  | TagsSettled (Fulfilled _ response) => Some (data _ (result _ response))
  | _ => None
  end.

Definition categoriesDelivered (e : event) : option (list ICategory) :=
  match e with
  | CategoriesSettled (Fulfilled _ response) => Some (data _ (result _ response))
  | _ => None
  end.

(** The event is a load coming back, not an action. *)
Definition isLoad (e : event) : bool :=
  match e with
  | TagsSettled _ | CategoriesSettled _ => true
  | _ => false
  end.

(** The store an event leaves behind. *)
Definition after (e : event) (s : Filter.Store ITag ICategory)
  : Filter.Store ITag ICategory :=
  fst (fst (step e s)).

(** Two stores that agree on everything but the two lists. *)
Definition sameFilter (s1 s2 : Filter.Store ITag ICategory) : Prop :=
  filterActive s1 = filterActive s2
  /\ filterType s1 = filterType s2
  /\ filterValues s1 = filterValues s2
  /\ modalVisible s1 = modalVisible s2.

End History.

End FilterHistory.

(* ===================================================================== *)
(** * The archive filter view *)
(* ===================================================================== *)

Module FilterView.

Import Filter.

(** An entry of [extends], as [getIconNameFromExtend] reads it: a [name]
    and a [value] that may be missing. *)
Module Extend.

Record IExtend : Type := {
  name : string;
  value : option string
}.

End Extend.

(** What the view reads of an [ITag] or an [ICategory] (both declared in
    [@app/types/business]): [_id], [name], [slug] and [extends]. *)
Record ITerm : Type := {
  _id : string;
  name : string;
  slug : string;
  extends : list Extend.IExtend
}.

Abbreviation Store := (Filter.Store ITerm ITerm).
Abbreviation TFilterValue := (Filter.TFilterValue ITerm ITerm).

Fixpoint dropChars (n : nat) (s : string) : string :=
  match n, s with
  | O, _ => s
  | S n', String _ s' => dropChars n' s'
  | S _, EmptyString => EmptyString
  end.

(** [s.replace(pattern, replacement)] with a string pattern: the first
    occurrence is replaced, the rest of the string is kept. *)
Fixpoint replaceFirst (pattern replacement s : string) : string :=
  if String.prefix pattern s
  then replacement ++ dropChars (String.length pattern) s
  else match s with
       | EmptyString => EmptyString
       | String c s' => String c (replaceFirst pattern replacement s')
       end.

(** [x || null] on a string that may be missing: the empty string is
    falsy. *)
Definition orNull (x : option string) : option string :=
  match x with
  | Some EmptyString => None
  | other => other
  end.

(** [getIconNameFromExtend(target)]. *)
Definition getIconNameFromExtend (target : option ITerm) : option string :=
  match target with
  | None => None
  | Some t =>
      if (List.length (extends t) =? 0)%nat then None
      else
        let targetExtend :=
          find (fun e => String.eqb (Extend.name e) "icon") (extends t) in
        orNull
          match targetExtend with
          | None => None
          | Some e =>
              match Extend.value e with
              | None => None
              | Some v => Some (replaceFirst "icon-" "" v)
              end
          end
  end.

(** One entry of [filters] in [scrollFilterListView] (without its
    localised heading). *)
Record filterEntry : Type := {
  type : EFilterType;
  data : list ITerm;
  defaultIconName : string
}.

Definition filters (s : Store) : list filterEntry :=
  [ {| type := Category; data := categories s; defaultIconName := "category" |};
    {| type := Tag; data := tags s; defaultIconName := "tag" |} ].

(** The pressed [item] as the value handed to [updateActiveFilter].  (No
    entry of [filters] has type [Search].) *)
Definition asValue (type : EFilterType) (item : ITerm) : TFilterValue :=
  match type with
  | Tag => OfTag item
  | Category | Search => OfCategory item
  end.

(** [activeValue && activeValue.slug === item.slug], with
    [activeValue = filterValues[filterType]]: [null] is falsy, and a
    string has no [slug]. *)
Definition sameSlug (activeValue : option TFilterValue) (item : ITerm) : bool :=
  match activeValue with
  | Some (OfTag v) | Some (OfCategory v) => String.eqb (slug v) (slug item)
  | Some (OfString _) | None => false
  end.

(** [isActive] of an item in the list of [filter]. *)
Definition isActive (s : Store) (filter : filterEntry) (item : ITerm) : bool :=
  filterActive s
  && EFilterType_eqb (filterType s) (type filter)
  && sameSlug (slot (filterType s) (filterValues s)) item.

(** The icon shown: [getIconNameFromExtend(item) || filter.defaultIconName]. *)
Definition iconName (filter : filterEntry) (item : ITerm) : string :=
  match getIconNameFromExtend (Some item) with
  | Some n => n
  | None => defaultIconName filter
  end.

(** The item's [onPress]. *)
Definition onPressItem (filter : filterEntry) (item : ITerm) (s : Store) : Store :=
  updateVisibleState false
    (updateActiveFilter (type filter) (asValue (type filter) item) s).

(** The [onPress] of the clear button in [extra]. *)
Definition onPressClear (s : Store) : Store :=
  updateVisibleState false (clearActiveFilter s).

(** The [onClose] handed to [BetterModal]. *)
Definition onClose (s : Store) : Store := updateVisibleState false s.

(** The props [render] hands to [BetterModal]: [visible] is the store's
    flag, [opacity] is left out. *)
Definition modalProps (s : Store) : Modal.IModalProps :=
  {| Modal.visible := modalVisible s; Modal.opacity := None |}.

(** The filter screen: the store and the modal it renders. *)
Record Screen : Type := {
  store : Store;
  modal : Modal.World
}.

(** What happens to the screen: some other component opens the filter
    ([updateVisibleState(true)]), the user presses the [i]-th item of
    the [k]-th list, the clear button or the close button, the platform
    reports [onShow], a time unit passes. *)
Inductive input : Type :=
| Open
| PressItem (k i : nat)
| PressClear
| PressClose
| PlatformShown
| Tick.

Section Clock.

Variable easing : Q -> Q.

(** A store action, then the render it causes: the modal receives the
    store's flag as [visible]. *)
Definition act (s' : Store) (sc : Screen) : option Screen :=
  match Modal.step easing (Modal.SetVisible (modalVisible s')) (modal sc) with
  | Some w => Some {| store := s'; modal := w |}
  | None => None
  end.

Definition platform (e : Modal.event) (sc : Screen) : option Screen :=
  match Modal.step easing e (modal sc) with
  | Some w => Some {| store := store sc; modal := w |}
  | None => None
  end.

(** The buttons exist only while the modal is mounted, and an active
    item is [disabled]. *)
Definition step (i : input) (sc : Screen) : option Screen :=
  let mounted := Modal.modalVisible (Modal.self (modal sc)) in
  match i with
  | Open => act (updateVisibleState true (store sc)) sc
  | PressItem k n =>
      match nth_error (filters (store sc)) k with
      | Some filter =>
          match nth_error (data filter) n with
          | Some item =>
              if mounted && negb (isActive (store sc) filter item)
              then act (onPressItem filter item (store sc)) sc
              else None
          | None => None
          end
      | None => None
      end
  | PressClear => if mounted then act (onPressClear (store sc)) sc else None
  | PressClose => if mounted then act (onClose (store sc)) sc else None
  | PlatformShown => platform Modal.OnShow sc
  | Tick => platform Modal.Frame sc
  end.

Fixpoint run (ins : list input) (sc : Screen) : option Screen :=
  match ins with
  | [] => Some sc
  | i :: ins' =>
      match step i sc with
      | Some sc' => run ins' sc'
      | None => None
      end
  end.

End Clock.

(** The screen when the component is first rendered over store [s]. *)
Definition firstRender (s : Store) : Screen :=
  {| store := s; modal := Modal.mount (modalProps s) |}.

Definition ticks (n : nat) : list input := repeat Tick n.

(** A store whose loads have delivered one category and one tag, for
    the examples. *)
Definition sampleCategory : ITerm :=
  {| _id := "5b30"; name := "Code"; slug := "code";
     extends := [ {| Extend.name := "icon"; Extend.value := Some "icon-code"%string |} ] |}.

Definition sampleTag : ITerm :=
  {| _id := "5b2f"; name := "React"; slug := "react";
     extends := [ {| Extend.name := "icon"; Extend.value := Some "icon-react"%string |} ] |}.

Definition sampleStore : Store :=
  {| filterActive := false;
     filterType := Category;
     filterValues := {| slotTag := None; slotCategory := None; slotSearch := None |};
     tags := [sampleTag];
     categories := [sampleCategory];
     modalVisible := false |}.

End FilterView.

(* ===================================================================== *)
(** * Further notions for the animated modal *)
(* ===================================================================== *)

Module ModalView.

Import Modal.

Local Open Scope Q_scope.

(** The mask opacity, and both ends of the animation in flight, lie
    between 0 and the configured opacity. *)
Definition withinTarget (w : World) : Prop :=
  let target := propOpacity (self w) in
  (0 <= value (maskOpacity (self w)) /\ value (maskOpacity (self w)) <= target)
  /\ (forall a, animation (maskOpacity (self w)) = Some a ->
        (0 <= fromValue a /\ fromValue a <= target)
        /\ (0 <= toValue a /\ toValue a <= target)).

(** Mounted with [visible] true and nothing in flight that would
    unmount: open, or opening. *)
Definition opened (w : World) : Prop :=
  visible (props (self w)) = true
  /\ modalVisible (self w) = true
  /\ unmountPending (self w) = false.

End ModalView.

(* ===================================================================== *)
(** * Properties of the archive filter store *)
(* ===================================================================== *)

Module FilterFacts.

Import Filter.

Section Generic.

Context {ITag ICategory Pagination : Type}.

Abbreviation Store := (Filter.Store ITag ICategory).
Abbreviation TFilterValue := (Filter.TFilterValue ITag ICategory).
Abbreviation event := (Filter.event ITag ICategory Pagination).

Lemma EFilterType_eqb_eq (a b : EFilterType) :
  EFilterType_eqb a b = true <-> a = b.
Proof. destruct a, b; simpl; split; intro H; try reflexivity; discriminate H. Qed.

Lemma slot_setSlot_same (type : EFilterType) (v : TFilterValue) vs :
  slot type (setSlot type v vs) = Some v.
Proof. destruct type; reflexivity. Qed.

Lemma slot_setSlot_other (type other : EFilterType) (v : TFilterValue) vs :
  other <> type -> slot other (setSlot type v vs) = slot other vs.
Proof. destruct type, other; simpl; intro H; try reflexivity; contradiction H; reflexivity. Qed.

(** The getter reads the slot named by [filterType], nothing else. *)
Lemma filterValue_slot (s : Store) :
  filterValue s = slot (filterType s) (filterValues s).
Proof. unfold filterValue. destruct (filterType s); reflexivity. Qed.

(** C4, as the code has it: [filterValue] returns whatever is stored for
    the type in [filterType], and never consults [filterActive]: it is
    absent exactly when that slot is [null], and [clearActiveFilter]
    leaves its result as it was.  Being a function of the store alone, it
    changes nothing. *)
Theorem filterValue_reads_slot_whatever_active (s : Store) :
  filterValue s = slot (filterType s) (filterValues s)
  /\ (filterValue s = None <-> slot (filterType s) (filterValues s) = None)
  /\ filterValue (clearActiveFilter s) = filterValue s
  /\ filterValue s
     = filterValue {| filterActive := negb (filterActive s);
                      filterType := filterType s;
                      filterValues := filterValues s;
                      tags := tags s;
                      categories := categories s;
                      modalVisible := modalVisible s |}.
Proof.
  rewrite !filterValue_slot. simpl.
  repeat split; intro H; exact H.
Qed.

(** C5: [clearActiveFilter] switches [filterActive] off and keeps the
    type, the three stored values, both lists and the modal flag. *)
Theorem clearActiveFilter_only_deactivates (s : Store) :
  let s' := clearActiveFilter s in
  filterActive s' = false
  /\ filterType s' = filterType s
  /\ slot Tag (filterValues s') = slot Tag (filterValues s)
  /\ slot Category (filterValues s') = slot Category (filterValues s)
  /\ slot Search (filterValues s') = slot Search (filterValues s)
  /\ filterValues s' = filterValues s
  /\ tags s' = tags s
  /\ categories s' = categories s
  /\ modalVisible s' = modalVisible s.
Proof. cbv zeta. unfold clearActiveFilter. simpl. repeat split. Qed.

(** C6: [updateActiveFilter type value] stores [value] in the slot of
    [type], makes [type] the current type and switches the filter on,
    while the other two slots keep their contents; so after a tag and
    then a category the getter returns the category, and after the tag
    again it returns the tag. *)
Theorem updateActiveFilter_selects (s : Store) (type : EFilterType) (value : TFilterValue)
  (t1 : ITag) (c1 : ICategory) :
  let s' := updateActiveFilter type value s in
  (slot type (filterValues s') = Some value
   /\ filterType s' = type
   /\ filterActive s' = true
   /\ filterValue s' = Some value
   /\ (forall other, other <> type ->
         slot other (filterValues s') = slot other (filterValues s)))
  /\ (let s2 := updateActiveFilter Category (OfCategory c1)
                  (updateActiveFilter Tag (OfTag t1) s) in
      filterValue s2 = Some (OfCategory c1)
      /\ filterValue (updateActiveFilter Tag (OfTag t1) s2) = Some (OfTag t1)
      /\ tags (updateActiveFilter Tag (OfTag t1) s2) = tags s).
Proof.
  cbv zeta. split.
  - rewrite filterValue_slot. unfold updateActiveFilter. simpl.
    rewrite slot_setSlot_same. repeat split.
    intros other H. apply slot_setSlot_other. exact H.
  - repeat split.
Qed.

(** Only the constructor sends requests. *)
Lemma step_sends_nothing (e : event) (s : Store) :
  snd (fst (step e s)) = [].
Proof.
  destruct e as [type value | | visible | r | r]; simpl; try reflexivity.
  - destruct (fetchTags_then r s); reflexivity.
  - destruct (fetchCategories_then r s); reflexivity.
Qed.

Lemma run_from_sent (es : list event) (s : Store) (sent : list request) :
  snd (run_from es s sent) = sent.
Proof.
  revert s sent. induction es as [| e es IH]; intros s sent; simpl.
  - reflexivity.
  - pose proof (step_sends_nothing e s) as Hs.
    destruct (step e s) as [[s' reqs] os]. simpl in Hs. subst reqs.
    rewrite IH. apply app_nil_r.
Qed.

(** The tag list is only ever written by a fulfilled tag load. *)
Lemma run_from_tags (es : list event) (s : Store) (sent : list request) :
  existsb tags_fulfilled es = false ->
  tags (fst (run_from es s sent)) = tags s.
Proof.
  revert s sent. induction es as [| e es IH]; intros s sent H; simpl.
  - reflexivity.
  - simpl in H. apply orb_false_elim in H. destruct H as [He Hes].
    destruct e as [type value | | visible | r | r]; simpl;
      try (rewrite IH by exact Hes; reflexivity).
    + destruct r as [response | reason]; simpl in *.
      * discriminate He.
      * rewrite IH by exact Hes. reflexivity.
    + destruct r as [response | reason]; simpl;
        rewrite IH by exact Hes; reflexivity.
Qed.

Lemma run_from_categories (es : list event) (s : Store) (sent : list request) :
  existsb categories_fulfilled es = false ->
  categories (fst (run_from es s sent)) = categories s.
Proof.
  revert s sent. induction es as [| e es IH]; intros s sent H; simpl.
  - reflexivity.
  - simpl in H. apply orb_false_elim in H. destruct H as [He Hes].
    destruct e as [type value | | visible | r | r]; simpl;
      try (rewrite IH by exact Hes; reflexivity).
    + destruct r as [response | reason]; simpl;
        rewrite IH by exact Hes; reflexivity.
    + destruct r as [response | reason]; simpl in *.
      * discriminate He.
      * rewrite IH by exact Hes. reflexivity.
Qed.

(** C9: the constructor sends [GET /tag] with [per_page = 666] and
    [GET /category], and whatever happens afterwards sends nothing more,
    so these two are all the requests of a store's life.  A fulfilled
    load stores the [data] array and touches nothing else; a rejected one
    finds no handler, leaves the store as it is and sends no second
    request, so as long as no load is fulfilled the list is empty. *)
Theorem two_loads_at_construction (es : list event) (s : Store)
  (tagsOk : THttpSuccessResponse (IHttpResultPaginate (Pagination := Pagination) (list ITag)))
  (categoriesOk : THttpSuccessResponse (IHttpResultPaginate (Pagination := Pagination) (list ICategory)))
  (reason : string) :
  snd (run es)
  = [ {| method := GET; path := "/tag"; params := [("per_page"%string, 666%Z)] |};
      {| method := GET; path := "/category"; params := [] |} ]
  /\ fetchTags_then (Fulfilled _ tagsOk) s
     = ({| filterActive := filterActive s; filterType := filterType s;
           filterValues := filterValues s;
           tags := data _ (result _ tagsOk);
           categories := categories s; modalVisible := modalVisible s |}, Handled)
  /\ fetchCategories_then (Fulfilled _ categoriesOk) s
     = ({| filterActive := filterActive s; filterType := filterType s;
           filterValues := filterValues s;
           tags := tags s;
           categories := data _ (result _ categoriesOk);
           modalVisible := modalVisible s |}, Handled)
  /\ step (Pagination := Pagination) (TagsSettled (Rejected _ reason)) s
     = (s, [], [UnhandledRejection reason])
  /\ step (Pagination := Pagination) (CategoriesSettled (Rejected _ reason)) s
     = (s, [], [UnhandledRejection reason])
  /\ (existsb tags_fulfilled es = false -> tags (fst (run es)) = [])
  /\ (existsb categories_fulfilled es = false -> categories (fst (run es)) = []).
Proof.
  repeat split.
  - unfold run. rewrite run_from_sent. reflexivity.
  - intro H. unfold run. rewrite run_from_tags by exact H. reflexivity.
  - intro H. unfold run. rewrite run_from_categories by exact H. reflexivity.
Qed.

End Generic.

(** C4 as the spec words it fails: select a tag, clear, and the getter
    still returns the tag although no selection is active. *)
Lemma filterValue_after_clear_is_not_absent :
  let s : Filter.Store string string :=
    clearActiveFilter (updateActiveFilter Tag (OfTag "react"%string) initial) in
  filterActive s = false
  /\ filterValue s = Some (OfTag "react"%string)
  /\ filterValue s <> None.
Proof. cbv zeta. repeat split. discriminate. Qed.

(** Selecting a category leaves a tag stored earlier in its slot. *)
Lemma updateActiveFilter_selects_witness :
  let s : Filter.Store string string :=
    updateActiveFilter Tag (OfTag "react"%string) initial in
  slot Tag (filterValues (updateActiveFilter Category (OfCategory "code"%string) s))
  = Some (OfTag "react"%string).
Proof.
  cbv zeta.
  rewrite (proj2 (proj2 (proj2 (proj2 (proj1
             (updateActiveFilter_selects
                (updateActiveFilter Tag (OfTag "react"%string) initial)
                Category (OfCategory "code"%string) "react"%string "code"%string)))))
             Tag ltac:(discriminate)).
  reflexivity.
Defined.

(** A store whose tag load is rejected and whose category load has not
    come back has sent its two requests and holds no tags. *)
Lemma two_loads_at_construction_witness :
  let es : list (Filter.event string string unit) :=
    [TagsSettled (Rejected _ "Network request failed"%string);
     UpdateVisibleState true; ClearActiveFilter] in
  List.length (snd (run es)) = 2%nat /\ tags (fst (run es)) = [].
Proof.
  cbv zeta.
  pose proof (two_loads_at_construction
                (ITag := string) (ICategory := string) (Pagination := unit)
                [TagsSettled (Rejected _ "Network request failed"%string);
                 UpdateVisibleState true; ClearActiveFilter]
                initial
                {| status := "success"%string; message := ""%string;
                   result := {| data := []; pagination := tt |} |}
                {| status := "success"%string; message := ""%string;
                   result := {| data := []; pagination := tt |} |}
                ""%string) as (Hsent & _ & _ & _ & _ & Htags & _).
  split.
  - rewrite Hsent. reflexivity.
  - apply Htags. reflexivity.
Defined.

End FilterFacts.

(* ===================================================================== *)
(** * Properties of the animated modal *)
(* ===================================================================== *)

Module ModalFacts.

Import Modal.

Local Open Scope Q_scope.

(** ** The methods, field by field *)

Lemma callOpt_fields (cb : option EndCallback) (m : BetterModal) :
  props (callOpt cb m) = props m
  /\ maskOpacity (callOpt cb m) = maskOpacity m
  /\ modalVisible (callOpt cb m)
     = match cb with Some _ => false | None => modalVisible m end.
Proof. destruct cb as [[] |]; simpl; repeat split. Qed.

Lemma stopAnimation_fields (m : BetterModal) :
  props (stopAnimation m) = props m
  /\ value (maskOpacity (stopAnimation m)) = value (maskOpacity m)
  /\ animation (maskOpacity (stopAnimation m)) = None
  /\ modalVisible (stopAnimation m)
     = if unmountPending m then false else modalVisible m.
Proof.
  unfold stopAnimation, unmountPending.
  destruct (animation (maskOpacity m)) as [a |] eqn:Ha.
  - destruct (onEnd a) as [[] |]; simpl; repeat split.
  - rewrite Ha. repeat split.
Qed.

Lemma timingStart_fields (to : Q) (d : nat) (cb : option EndCallback) (m : BetterModal) :
  props (timingStart to d cb m) = props m
  /\ maskOpacity (timingStart to d cb m)
     = {| value := value (maskOpacity m);
          animation := Some {| fromValue := value (maskOpacity m); toValue := to;
                               duration := d; elapsed := 0; onEnd := cb |} |}
  /\ modalVisible (timingStart to d cb m)
     = if unmountPending m then false else modalVisible m.
Proof.
  destruct (stopAnimation_fields m) as (Hp & Hv & _ & Hm).
  unfold timingStart. simpl. rewrite Hp, Hv, Hm. repeat split.
Qed.

Lemma unmountPending_started (to : Q) (d : nat) (cb : option EndCallback) (m : BetterModal) :
  unmountPending (timingStart to d cb m)
  = match cb with Some _ => true | None => false end.
Proof.
  unfold unmountPending.
  destruct (timingStart_fields to d cb m) as (_ & Hm & _). rewrite Hm. reflexivity.
Qed.

Lemma receiveVisible_props (b : bool) (m : BetterModal) :
  props (receiveVisible b m) = {| visible := b; opacity := opacity (props m) |}.
Proof.
  unfold receiveVisible, handleVisibleChange, updateMaskVisible.
  destruct (Bool.eqb b (visible (props m))); [reflexivity |].
  destruct b; [reflexivity |].
  match goal with |- props (timingStart ?t ?d ?c ?x) = _ =>
    destruct (timingStart_fields t d c x) as (Hp & _) end.
  rewrite Hp. reflexivity.
Qed.

(** The platform modal after a render is hidden exactly when the
    component is unmounted. *)
Lemma render_follows (before : NativeModal) (m : BetterModal) :
  render before m = Hidden <-> modalVisible m = false.
Proof.
  unfold render. destruct (modalVisible m); [| tauto].
  destruct before; split; intro H; discriminate H.
Qed.

Lemma render_keeps (before : NativeModal) (m : BetterModal) :
  (before = Hidden <-> modalVisible m = false) -> render before m = before.
Proof.
  unfold render. intros [H1 H2].
  destruct (modalVisible m).
  - destruct before; try reflexivity. discriminate (H1 eq_refl).
  - symmetry. apply H2. reflexivity.
Qed.


Lemma stopAnimation_idle (m : BetterModal) :
  animation (maskOpacity m) = None -> stopAnimation m = m.
Proof. intro H. unfold stopAnimation. rewrite H. reflexivity. Qed.

(** ** The render after a handler *)

(** Unmounting the mask's view changes nothing but the animation. *)
Lemma rerender_fields (before m : BetterModal) :
  props (rerender before m) = props m
  /\ modalVisible (rerender before m) = modalVisible m
  /\ value (maskOpacity (rerender before m)) = value (maskOpacity m).
Proof.
  unfold rerender.
  destruct (modalVisible before && negb (modalVisible m)) eqn:E; [| repeat split].
  apply andb_prop in E. destruct E as [_ E]. apply negb_true_iff in E.
  destruct (stopAnimation_fields m) as (Hp & Hv & _ & Hmv).
  rewrite Hp, Hv, Hmv, E. destruct (unmountPending m); repeat split.
Qed.

(** Either nothing happens, or the modal has just been unmounted and no
    animation is left. *)
Lemma rerender_cases (before m : BetterModal) :
  rerender before m = m
  \/ (modalVisible before = true /\ modalVisible m = false
      /\ maskOpacity (rerender before m)
         = {| value := value (maskOpacity m); animation := None |}).
Proof.
  unfold rerender.
  destruct (modalVisible before && negb (modalVisible m)) eqn:E; [| left; reflexivity].
  apply andb_prop in E. destruct E as [E1 E2]. apply negb_true_iff in E2.
  right. split; [exact E1 |]. split; [exact E2 |].
  destruct (stopAnimation_fields m) as (_ & Hv & Ha & _).
  destruct (maskOpacity (stopAnimation m)) as [v a]. simpl in *. subst. reflexivity.
Qed.

Lemma rerender_id (before m : BetterModal) :
  modalVisible before = false \/ modalVisible m = true
  \/ animation (maskOpacity m) = None ->
  rerender before m = m.
Proof.
  unfold rerender. intros [H | [H | H]].
  - rewrite H. reflexivity.
  - rewrite H, andb_false_r. reflexivity.
  - rewrite (stopAnimation_idle m H). destruct (_ && _); reflexivity.
Qed.

Lemma rerender_animation (before m : BetterModal) (a : TimingAnimation) :
  animation (maskOpacity (rerender before m)) = Some a ->
  animation (maskOpacity m) = Some a.
Proof.
  destruct (rerender_cases before m) as [-> | (_ & _ & H)]; [tauto |].
  rewrite H. discriminate.
Qed.


Lemma receiveVisible_fields (b : bool) (m : BetterModal) :
  (b = visible (props m)
   /\ maskOpacity (receiveVisible b m) = maskOpacity m
   /\ modalVisible (receiveVisible b m) = modalVisible m)
  \/ (b = true /\ visible (props m) = false
      /\ maskOpacity (receiveVisible b m) = maskOpacity m
      /\ modalVisible (receiveVisible b m) = true)
  \/ (b = false /\ visible (props m) = true
      /\ maskOpacity (receiveVisible b m)
         = {| value := value (maskOpacity m);
              animation := Some {| fromValue := value (maskOpacity m); toValue := 0;
                                   duration := 88; elapsed := 0;
                                   onEnd := Some UnmountAfterFade |} |}
      /\ modalVisible (receiveVisible b m)
         = if unmountPending m then false else modalVisible m).
Proof.
  unfold receiveVisible, handleVisibleChange, updateMaskVisible.
  destruct b, (visible (props m)) eqn:Hv; cbn [Bool.eqb].
  - left. repeat split.
  - right. left. repeat split.
  - right. right.
    match goal with |- context [timingStart ?t ?d ?c ?x] =>
      destruct (timingStart_fields t d c x) as (_ & Hm & Hmv) end.
    rewrite Hm, Hmv. repeat split.
  - left. repeat split.
Qed.

Lemma onShow_fields (m : BetterModal) :
  props (onShow m) = props m
  /\ maskOpacity (onShow m)
     = {| value := value (maskOpacity m);
          animation := Some {| fromValue := value (maskOpacity m);
                               toValue := propOpacity m;
                               duration := 88; elapsed := 0; onEnd := None |} |}
  /\ modalVisible (onShow m)
     = if unmountPending m then false else modalVisible m.
Proof. unfold onShow, updateMaskVisible. apply timingStart_fields. Qed.

(** ** What holds in every state *)

#[local] Arguments receiveVisible : simpl never.
#[local] Arguments onShow : simpl never.
#[local] Arguments frame : simpl never.
#[local] Arguments render : simpl never.
#[local] Arguments rerender : simpl never.

Section Runs.

Variable easing : Q -> Q.

(** A step is its handler followed by the render. *)
Lemma step_handle (e : event) (w w' : World) :
  step easing e w = Some w' ->
  exists w1, handle easing e w = Some w1 /\ w' = rerendered w w1.
Proof.
  unfold step. destruct (handle easing e w) as [w1 |]; [| discriminate].
  intro H. injection H as <-. exists w1. split; reflexivity.
Qed.

(** Where the render has nothing to unmount, the step is the handler. *)
Lemma step_of_handle (e : event) (w w1 : World) :
  handle easing e w = Some w1 ->
  modalVisible (self w) = false \/ modalVisible (self w1) = true
  \/ animation (maskOpacity (self w1)) = None ->
  step easing e w = Some w1.
Proof.
  intros Hh H. unfold step. rewrite Hh. unfold rerendered.
  rewrite (rerender_id (self w) (self w1) H). destruct w1; reflexivity.
Qed.

Lemma rerendered_fields (w w1 : World) :
  props (self (rerendered w w1)) = props (self w1)
  /\ modalVisible (self (rerendered w w1)) = modalVisible (self w1)
  /\ value (maskOpacity (self (rerendered w w1))) = value (maskOpacity (self w1))
  /\ presented (rerendered w w1) = presented w1
  /\ clock (rerendered w w1) = clock w1.
Proof.
  destruct (rerender_fields (self w) (self w1)) as (Hp & Hmv & Hv).
  unfold rerendered. cbn [self presented clock]. repeat split; assumption.
Qed.

Lemma handle_consistent (e : event) (w w' : World) :
  consistent w -> handle easing e w = Some w' -> consistent w'.
Proof.
  intros [Hanim Hnat] Hstep. destruct e as [b | |]; simpl in Hstep.
  - injection Hstep as <-. split; cbn [self presented clock]; [| apply render_follows].
    intros a Ha.
    destruct (receiveVisible_fields b (self w))
      as [(_ & Hm & _) | [(_ & _ & Hm & _) | (_ & _ & Hm & _)]];
      rewrite Hm in Ha; try (apply Hanim; exact Ha).
    simpl in Ha. injection Ha as <-. repeat split; simpl; lia.
  - destruct (presented w); try discriminate Hstep.
    injection Hstep as <-. split; cbn [self presented clock]; [| apply render_follows].
    intros a Ha. destruct (onShow_fields (self w)) as (_ & Hm & _).
    rewrite Hm in Ha. simpl in Ha. injection Ha as <-.
    repeat split; simpl; try lia. intro H. contradiction H. reflexivity.
  - injection Hstep as <-. split; cbn [self presented clock]; [| apply render_follows].
    intros a Ha. unfold frame in Ha.
    destruct (animation (maskOpacity (self w))) as [a0 |] eqn:Ha0.
    + destruct (Hanim a0 eq_refl) as (Hd & He & Ht).
      destruct (duration a0 <=? S (elapsed a0))%nat eqn:Hend.
      * destruct (callOpt_fields (onEnd a0)
                    (withMask {| value := toValue a0; animation := None |} (self w)))
          as (_ & Hm & _).
        rewrite Hm in Ha. discriminate Ha.
      * simpl in Ha. injection Ha as <-.
        apply Nat.leb_gt in Hend. repeat split; simpl; try lia. exact Ht.
    + rewrite Ha0 in Ha. discriminate Ha.
Qed.

Lemma rerendered_consistent (w w1 : World) :
  consistent w1 -> consistent (rerendered w w1).
Proof.
  intros [Hanim Hnat].
  destruct (rerendered_fields w w1) as (_ & Hmv & _ & Hpr & _). split.
  - intros a Ha. apply Hanim. apply (rerender_animation (self w)). exact Ha.
  - rewrite Hmv, Hpr. exact Hnat.
Qed.

Lemma step_consistent (e : event) (w w' : World) :
  consistent w -> step easing e w = Some w' -> consistent w'.
Proof.
  intros Hw Hstep. destruct (step_handle e w w' Hstep) as (w1 & Hh & ->).
  apply rerendered_consistent. apply (handle_consistent e w w1 Hw Hh).
Qed.

Lemma mount_consistent (p : IModalProps) : consistent (mount p).
Proof.
  unfold mount. split; cbn [self presented clock]; [| apply render_follows].
  intros a Ha. unfold constructor, handleVisibleChange in Ha.
  destruct (visible p); simpl in Ha; [discriminate Ha |].
  injection Ha as <-. repeat split; simpl; lia.
Qed.

(** An invariant of [step] holds after every run. *)
Lemma run_invariant (P : World -> Prop) :
  (forall e w w', P w -> step easing e w = Some w' -> P w') ->
  forall es w w', P w -> run easing es w = Some w' -> P w'.
Proof.
  intros Hstep es. induction es as [| e es IH]; intros w w' Hw Hrun; simpl in Hrun.
  - injection Hrun as <-. exact Hw.
  - destruct (step easing e w) as [w1 |] eqn:He; [| discriminate Hrun].
    apply (IH w1 w'); [| exact Hrun]. apply (Hstep e w w1 Hw He).
Qed.

Lemma run_consistent (es : list event) (w w' : World) :
  consistent w -> run easing es w = Some w' -> consistent w'.
Proof. apply run_invariant. intros e w0 w1. apply step_consistent. Qed.

Lemma run_app (es1 es2 : list event) (w : World) :
  run easing (es1 ++ es2) w
  = match run easing es1 w with
    | Some w1 => run easing es2 w1
    | None => None
    end.
Proof.
  revert w. induction es1 as [| e es1 IH]; intro w; simpl.
  - reflexivity.
  - destruct (step easing e w) as [w1 |]; [apply IH | reflexivity].
Qed.

Lemma handle_closing (e : event) (w w' : World) :
  closing w -> handle easing e w = Some w' -> closing w'.
Proof.
  unfold closing. intros Hw Hstep. destruct e as [b | |]; simpl in Hstep.
  - injection Hstep as <-. cbn [self presented clock]. rewrite receiveVisible_props. simpl. intros ->.
    unfold unmountPending.
    destruct (receiveVisible_fields false (self w))
      as [(Hv & Hm & Hmv) | [(Hb & _) | (_ & _ & Hm & _)]].
    + rewrite Hm, Hmv. apply Hw. symmetry. exact Hv.
    + discriminate Hb.
    + rewrite Hm. right. reflexivity.
  - destruct (presented w); try discriminate Hstep.
    injection Hstep as <-. cbn [self presented clock].
    destruct (onShow_fields (self w)) as (Hp & _ & Hmv).
    rewrite Hp, Hmv. intro Hv. left.
    destruct (unmountPending (self w)) eqn:Hpend; [reflexivity |].
    destruct (Hw Hv) as [H | H]; [exact H | discriminate H].
  - injection Hstep as <-. cbn [self presented clock]. unfold frame, unmountPending in *.
    destruct (animation (maskOpacity (self w))) as [a |] eqn:Ha; [| rewrite Ha; exact Hw].
    destruct (duration a <=? S (elapsed a))%nat.
    + destruct (callOpt_fields (onEnd a)
                  (withMask {| value := toValue a; animation := None |} (self w)))
        as (Hp & _ & Hmv).
      rewrite Hp, Hmv. simpl. intro Hv. left.
      destruct (onEnd a); [reflexivity |].
      destruct (Hw Hv) as [H | H]; [exact H | discriminate H].
    + simpl. exact Hw.
Qed.

Lemma step_closing (e : event) (w w' : World) :
  closing w -> step easing e w = Some w' -> closing w'.
Proof.
  intros Hw Hstep. destruct (step_handle e w w' Hstep) as (w1 & Hh & ->).
  pose proof (handle_closing e w w1 Hw Hh) as H1. unfold closing in *.
  destruct (rerendered_fields w w1) as (Hp & Hmv & _).
  rewrite Hp, Hmv. intro Hv.
  unfold rerendered; cbn [self].
  destruct (rerender_cases (self w) (self w1)) as [-> | (_ & H & _)].
  - apply H1. exact Hv.
  - left. exact H.
Qed.

Lemma mount_closing (p : IModalProps) : closing (mount p).
Proof.
  unfold closing, mount, constructor, handleVisibleChange. simpl.
  destruct (visible p) eqn:Hv; simpl; intro H.
  - rewrite Hv in H. discriminate H.
  - left. reflexivity.
Qed.

Lemma handle_staysMounted (e : event) (w w' : World) :
  (match e with SetVisible _ => false | _ => true end) = true ->
  staysMounted w -> handle easing e w = Some w' -> staysMounted w'.
Proof.
  unfold staysMounted. intros He [Hmv Hpend] Hstep.
  destruct e as [b | |]; [discriminate He | |]; simpl in Hstep.
  - destruct (presented w); try discriminate Hstep.
    injection Hstep as <-. cbn [self presented clock].
    destruct (onShow_fields (self w)) as (_ & Hm & Hmv').
    rewrite Hmv', Hpend. unfold unmountPending. rewrite Hm. simpl. split; [exact Hmv | reflexivity].
  - injection Hstep as <-. cbn [self presented clock]. unfold frame, unmountPending in *.
    destruct (animation (maskOpacity (self w))) as [a |] eqn:Ha;
      [| rewrite Ha; split; [exact Hmv | reflexivity]].
    destruct (onEnd a) eqn:Hend; [discriminate Hpend |].
    destruct (duration a <=? S (elapsed a))%nat; simpl;
      try rewrite Hend; (split; [exact Hmv | reflexivity]).
Qed.

Lemma step_staysMounted (e : event) (w w' : World) :
  (match e with SetVisible _ => false | _ => true end) = true ->
  staysMounted w -> step easing e w = Some w' -> staysMounted w'.
Proof.
  intros He Hw Hstep. destruct (step_handle e w w' Hstep) as (w1 & Hh & ->).
  pose proof (handle_staysMounted e w w1 He Hw Hh) as [Hmv Hpend].
  unfold rerendered. rewrite (rerender_id (self w) (self w1)) by (right; left; exact Hmv).
  split; assumption.
Qed.

Lemma run_staysMounted (es : list event) (w w' : World) :
  untouched es = true ->
  staysMounted w -> run easing es w = Some w' -> staysMounted w'.
Proof.
  revert w. induction es as [| e es IH]; intros w Hes Hw Hrun; simpl in *.
  - injection Hrun as <-. exact Hw.
  - apply andb_prop in Hes. destruct Hes as [He Hes].
    destruct (step easing e w) as [w1 |] eqn:Hstep; [| discriminate Hrun].
    apply (IH w1 Hes); [| exact Hrun].
    apply (step_staysMounted e w w1 He Hw Hstep).
Qed.


(** ** Time passing over an animation *)

Lemma frames_snoc (n : nat) : frames (S n) = frames n ++ [Frame].
Proof.
  unfold frames. replace (S n) with (n + 1)%nat by lia.
  rewrite repeat_app. reflexivity.
Qed.

Lemma frame_idle (m : BetterModal) :
  animation (maskOpacity m) = None -> frame easing m = m.
Proof. intro H. unfold frame. rewrite H. reflexivity. Qed.

Lemma frame_progress (m : BetterModal) (a : TimingAnimation) :
  animation (maskOpacity m) = Some a ->
  duration a = 88%nat ->
  (S (elapsed a) < 88)%nat ->
  frame easing m
  = withMask
      {| value := Qred (fromValue a
                        + easing (progress (S (elapsed a))) * (toValue a - fromValue a));
         animation := Some {| fromValue := fromValue a; toValue := toValue a;
                              duration := duration a; elapsed := S (elapsed a);
                              onEnd := onEnd a |} |} m.
Proof.
  intros Ha Hd Hlt. unfold frame, progress. rewrite Ha, Hd.
  destruct (Nat.leb_spec 88 (S (elapsed a))) as [H | H]; [lia | reflexivity].
Qed.

Lemma frame_finish (m : BetterModal) (a : TimingAnimation) :
  animation (maskOpacity m) = Some a ->
  (duration a <= S (elapsed a))%nat ->
  frame easing m
  = callOpt (onEnd a) (withMask {| value := toValue a; animation := None |} m).
Proof.
  intros Ha Hle. unfold frame. rewrite Ha.
  destruct (Nat.leb_spec (duration a) (S (elapsed a))) as [H | H]; [reflexivity | lia].
Qed.

(** A time unit never leaves an animation for the render to stop: the
    modal is unmounted by a time unit only when its fade-out completes. *)
Lemma step_Frame (w : World) :
  step easing Frame w
  = Some {| self := frame easing (self w);
            presented := render (presented w) (frame easing (self w));
            clock := S (clock w) |}.
Proof.
  apply step_of_handle; [reflexivity |]. cbn [self].
  destruct (modalVisible (self w)) eqn:Hmv; [right | left; reflexivity].
  unfold frame.
  destruct (animation (maskOpacity (self w))) as [a |] eqn:Ha; [| left; exact Hmv].
  destruct (duration a <=? S (elapsed a))%nat.
  - right.
    match goal with |- context [callOpt ?c ?x] =>
      destruct (callOpt_fields c x) as (_ & Hm & _) end.
    rewrite Hm. reflexivity.
  - left. exact Hmv.
Qed.

(** While the animation has not reached its end, [n] time units move
    the number along the easing curve and change nothing else. *)
Lemma run_frames_progress (n : nat) : forall (w : World) (a : TimingAnimation),
  (presented w = Hidden <-> modalVisible (self w) = false) ->
  animation (maskOpacity (self w)) = Some a ->
  duration a = 88%nat ->
  (elapsed a + n < 88)%nat ->
  exists w',
    run easing (frames n) w = Some w'
    /\ props (self w') = props (self w)
    /\ modalVisible (self w') = modalVisible (self w)
    /\ presented w' = presented w
    /\ clock w' = (clock w + n)%nat
    /\ animation (maskOpacity (self w'))
       = Some {| fromValue := fromValue a; toValue := toValue a;
                 duration := duration a; elapsed := (elapsed a + n)%nat;
                 onEnd := onEnd a |}
    /\ value (maskOpacity (self w'))
       = match n with
         | O => value (maskOpacity (self w))
         | S _ => Qred (fromValue a
                        + easing (progress (elapsed a + n)) * (toValue a - fromValue a))
         end.
Proof.
  induction n as [| n IH]; intros w a Hnat Ha Hd Hlt.
  - exists w. simpl. rewrite !Nat.add_0_r, Ha. destruct a; simpl. repeat split.
  - pose proof (frame_progress (self w) a Ha Hd ltac:(lia)) as Hf.
    set (a1 := {| fromValue := fromValue a; toValue := toValue a;
                  duration := duration a; elapsed := S (elapsed a);
                  onEnd := onEnd a |}) in *.
    set (w1 := {| self := frame easing (self w);
                  presented := render (presented w) (frame easing (self w));
                  clock := S (clock w) |}).
    assert (Hmv1 : modalVisible (self w1) = modalVisible (self w))
      by (unfold w1; cbn [self]; rewrite Hf; reflexivity).
    assert (Hp1 : presented w1 = presented w).
    { unfold w1; cbn [presented]. apply render_keeps.
      rewrite Hf. cbn [modalVisible withMask]. exact Hnat. }
    destruct (IH w1 a1) as (w' & Hrun & Hp & Hmv & Hpr & Hc & Han & Hv).
    + rewrite Hp1, Hmv1. exact Hnat.
    + unfold w1; cbn [self]. rewrite Hf. reflexivity.
    + exact Hd.
    + unfold a1; cbn [elapsed]. lia.
    + exists w'. change (frames (S n)) with (Frame :: frames n).
      cbn [run]. rewrite (step_Frame w). fold w1. rewrite Hrun.
      unfold a1 in Han, Hv; cbn [fromValue toValue duration elapsed onEnd] in Han, Hv.
      replace (S (elapsed a) + n)%nat with (elapsed a + S n)%nat in Han, Hv by lia.
      repeat split.
      * rewrite Hp. unfold w1; cbn [self]. rewrite Hf. reflexivity.
      * rewrite Hmv. exact Hmv1.
      * rewrite Hpr. exact Hp1.
      * rewrite Hc. unfold w1; cbn [clock]. lia.
      * exact Han.
      * rewrite Hv. destruct n as [| n'].
        -- unfold w1; cbn [self]. rewrite Hf. cbn [maskOpacity withMask value].
           replace (elapsed a + 1)%nat with (S (elapsed a)) by lia. reflexivity.
        -- reflexivity.
Qed.

(** Run to its end, an animation leaves the number at its target, is
    gone, and has called its callback. *)
Lemma run_frames_finish (w : World) (a : TimingAnimation) :
  (presented w = Hidden <-> modalVisible (self w) = false) ->
  animation (maskOpacity (self w)) = Some a ->
  duration a = 88%nat ->
  (elapsed a < 88)%nat ->
  exists w',
    run easing (frames (88 - elapsed a)) w = Some w'
    /\ props (self w') = props (self w)
    /\ modalVisible (self w')
       = match onEnd a with Some _ => false | None => modalVisible (self w) end
    /\ maskOpacity (self w') = {| value := toValue a; animation := None |}
    /\ presented w' = match onEnd a with Some _ => Hidden | None => presented w end
    /\ clock w' = (clock w + (88 - elapsed a))%nat.
Proof.
  intros Hnat Ha Hd Hlt.
  destruct (run_frames_progress (87 - elapsed a) w a Hnat Ha Hd ltac:(lia))
    as (w1 & Hrun & Hp & Hmv & Hpr & Hc & Han & _).
  replace (88 - elapsed a)%nat with (S (87 - elapsed a)) by lia.
  rewrite frames_snoc, run_app, Hrun. cbn [run]. rewrite (step_Frame w1).
  eexists. split; [reflexivity |]. cbn [self presented clock].
  rewrite (frame_finish (self w1) _ Han) by (cbn [duration elapsed]; lia).
  cbn [onEnd toValue].
  match goal with |- context [callOpt ?c ?x] =>
    destruct (callOpt_fields c x) as (Hp' & Hm' & Hmv') end.
  rewrite Hp', Hm', Hmv'. cbn [props withMask modalVisible maskOpacity].
  repeat split.
  - exact Hp.
  - destruct (onEnd a); [reflexivity | exact Hmv].
  - unfold render. rewrite Hmv'. cbn [modalVisible withMask]. rewrite Hpr, Hmv.
    destruct (onEnd a); [reflexivity |].
    destruct (modalVisible (self w)) eqn:E.
    + destruct (presented w) eqn:E'; try reflexivity.
      destruct Hnat as [H _]. discriminate (H eq_refl).
    + symmetry. apply Hnat. reflexivity.
  - rewrite Hc. lia.
Qed.

(** ** An unmounted modal stays transparent while no fade-out is cut short *)

Lemma handle_dark (e : event) (w w' : World) :
  consistent w -> dark w -> interrupts e w = false ->
  handle easing e w = Some w' -> dark w'.
Proof.
  intros [Hanim Hnat] Hdark Hint Hstep. unfold dark in *.
  destruct e as [b | |]; simpl in Hstep.
  - injection Hstep as <-. cbn [self presented clock].
    destruct (receiveVisible_fields b (self w))
      as [(_ & Hm & Hmv) | [(_ & _ & _ & Hmv) | (Hb & Hv & Hm & Hmv)]];
      rewrite Hmv.
    + rewrite Hm. exact Hdark.
    + intro H. discriminate H.
    + subst b. simpl in Hint. rewrite Hv in Hint. simpl in Hint. rewrite Hint, Hm.
      intro H. destruct (Hdark H) as [H0 _]. cbn [value animation]. split; [exact H0 |].
      intros a Ha. injection Ha as <-. cbn [fromValue toValue]. split; [exact H0 | reflexivity].
  - destruct (presented w) eqn:Hpr; try discriminate Hstep.
    injection Hstep as <-. cbn [self presented clock].
    destruct (onShow_fields (self w)) as (_ & _ & Hmv).
    simpl in Hint. rewrite Hmv, Hint. intro H.
    destruct Hnat as [_ Hnat]. discriminate (Hnat H).
  - injection Hstep as <-. cbn [self presented clock].
    destruct (animation (maskOpacity (self w))) as [a |] eqn:Ha.
    + destruct (Hanim a eq_refl) as (Hd & He & Ht).
      destruct (Nat.lt_ge_cases (S (elapsed a)) 88) as [Hlt | Hge].
      * rewrite (frame_progress (self w) a Ha Hd Hlt).
        cbn [modalVisible withMask maskOpacity value animation].
        intro H. destruct (Hdark H) as [_ Ha']. destruct (Ha' a eq_refl) as [Hf Hto].
        split.
        -- rewrite Qred_correct, Hf, Hto. ring.
        -- intros a' E. injection E as <-. cbn [fromValue toValue]. split; assumption.
      * rewrite (frame_finish (self w) a Ha) by lia.
        match goal with |- context [callOpt ?c ?x] =>
          destruct (callOpt_fields c x) as (_ & Hm' & Hmv') end.
        rewrite Hm', Hmv'. cbn [modalVisible withMask maskOpacity value animation].
        intro H. split; [| intros a' E; discriminate E].
        destruct (onEnd a) eqn:Hend.
        -- rewrite Ht by discriminate. reflexivity.
        -- destruct (Hdark H) as [_ Ha']. apply (Ha' a eq_refl).
    + rewrite (frame_idle (self w) Ha), Ha. exact Hdark.
Qed.

Lemma step_dark (e : event) (w w' : World) :
  consistent w -> dark w -> interrupts e w = false ->
  step easing e w = Some w' -> dark w'.
Proof.
  intros Hc Hd Hint Hstep. destruct (step_handle e w w' Hstep) as (w1 & Hh & ->).
  pose proof (handle_dark e w w1 Hc Hd Hint Hh) as H1. unfold dark in *.
  destruct (rerendered_fields w w1) as (_ & Hmv & Hv & _).
  rewrite Hmv, Hv. intro H. destruct (H1 H) as [H0 Ha]. split; [exact H0 |].
  intros a E. apply Ha. apply (rerender_animation (self w)). exact E.
Qed.

Lemma run_dark (es : list event) : forall (w w' : World),
  consistent w -> dark w -> calm easing es w = true ->
  run easing es w = Some w' -> dark w'.
Proof.
  induction es as [| e es IH]; intros w w' Hc Hd Hcalm Hrun; simpl in Hrun.
  - injection Hrun as <-. exact Hd.
  - cbn [calm] in Hcalm. apply andb_prop in Hcalm. destruct Hcalm as [Hint Hcalm].
    apply negb_true_iff in Hint.
    destruct (step easing e w) as [w1 |] eqn:He; [| discriminate Hrun].
    apply (IH w1 w').
    + apply (step_consistent e w w1 Hc He).
    + apply (step_dark e w w1 Hc Hd Hint He).
    + exact Hcalm.
    + exact Hrun.
Qed.

Lemma mount_dark (p : IModalProps) : dark (mount p).
Proof.
  unfold dark, mount, constructor, handleVisibleChange. cbn [self].
  destruct (visible p); simpl; intro H; [discriminate H |].
  split; [reflexivity |]. intros a E. injection E as <-. simpl. split; reflexivity.
Qed.


Lemma frame_props (m : BetterModal) : props (frame easing m) = props m.
Proof.
  unfold frame. destruct (animation (maskOpacity m)) as [a |]; [| reflexivity].
  destruct (duration a <=? S (elapsed a))%nat; [| reflexivity].
  match goal with |- context [callOpt ?c ?x] =>
    destruct (callOpt_fields c x) as (Hp & _) end.
  rewrite Hp. reflexivity.
Qed.

Lemma run_untouched_props (es : list event) : forall (w w' : World),
  untouched es = true -> run easing es w = Some w' ->
  props (self w') = props (self w).
Proof.
  induction es as [| e es IH]; intros w w' Hes Hrun; simpl in *.
  - injection Hrun as <-. reflexivity.
  - apply andb_prop in Hes. destruct Hes as [He Hes].
    destruct (step easing e w) as [w1 |] eqn:Hstep; [| discriminate Hrun].
    rewrite (IH w1 w' Hes Hrun).
    destruct (step_handle e w w1 Hstep) as (w2 & Hh & ->).
    destruct (rerendered_fields w w2) as (Hp & _). rewrite Hp.
    destruct e as [b | |]; [discriminate He | |]; simpl in Hh.
    + destruct (presented w); try discriminate Hh.
      injection Hh as <-. cbn [self]. apply onShow_fields.
    + injection Hh as <-. cbn [self]. apply frame_props.
Qed.

(** ** The claims about the visibility logic *)

(** C1, as the code has it: the unmount that a fade-out performs when it
    has run its full 88 time units happens at mask opacity 0, with no
    animation left; and along every run in which no animation is started
    while a fade-out is still in flight, an unmounted modal has mask
    opacity 0. *)
Theorem unmount_at_zero_unless_cut_short (p : IModalProps) (es : list event) (w : World) :
  run easing es (mount p) = Some w ->
  (forall w',
     step easing Frame w = Some w' ->
     modalVisible (self w) = true -> modalVisible (self w') = false ->
     maskOpacity (self w') = {| value := 0; animation := None |})
  /\ (calm easing es (mount p) = true ->
      modalVisible (self w) = false -> value (maskOpacity (self w)) == 0).
Proof.
  intro Hrun.
  pose proof (run_consistent es _ _ (mount_consistent p) Hrun) as [Hanim Hnat].
  split.
  - intros w' Hstep Hmv Hmv'. rewrite step_Frame in Hstep. injection Hstep as <-.
    cbn [self] in *.
    destruct (animation (maskOpacity (self w))) as [a |] eqn:Ha.
    + destruct (Hanim a eq_refl) as (Hd & He & Ht).
      destruct (Nat.lt_ge_cases (S (elapsed a)) 88) as [Hlt | Hge].
      * rewrite (frame_progress (self w) a Ha Hd Hlt) in Hmv'.
        cbn [modalVisible withMask] in Hmv'. congruence.
      * rewrite (frame_finish (self w) a Ha) in * by lia.
        match type of Hmv' with context [callOpt ?c ?x] =>
          destruct (callOpt_fields c x) as (_ & Hm' & Hmv1) end.
        rewrite Hmv1 in Hmv'. rewrite Hm'. cbn [maskOpacity withMask modalVisible] in *.
        destruct (onEnd a); [| congruence].
        rewrite Ht by discriminate. reflexivity.
    + rewrite (frame_idle (self w) Ha) in Hmv'. congruence.
  - intros Hcalm Hmv.
    apply (run_dark es _ _ (mount_consistent p) (mount_dark p) Hcalm Hrun Hmv).
Qed.

(** C2, as the code has it: starting an animation replaces the one in
    flight and sets out from the current opacity.  On a modal with no
    unmount pending, a close request ([visible] turning false) so
    redirects a fade-in toward 0 without side effect, and [onShow]
    starts the fade-in toward the configured opacity.  Where a fade-out
    is still pending on the mounted modal, stopping it calls its
    callback: the modal is unmounted at once, the mask's view goes with
    it and no animation is left, the opacity staying where it stood.  A
    [visible] turning true again starts no animation and cancels
    nothing: a fade-out in flight keeps going and, when it completes,
    its callback unmounts the modal although [visible] is true. *)
Theorem requests_redirect_but_never_cancel (p : IModalProps) (es : list event) (w : World) :
  run easing es (mount p) = Some w ->
  (forall w',
     visible (props (self w)) = true ->
     step easing (SetVisible false) w = Some w' ->
     value (maskOpacity (self w')) = value (maskOpacity (self w))
     /\ (modalVisible (self w) && unmountPending (self w) = false ->
         modalVisible (self w') = modalVisible (self w)
         /\ animation (maskOpacity (self w'))
            = Some {| fromValue := value (maskOpacity (self w)); toValue := 0;
                      duration := 88; elapsed := 0;
                      onEnd := Some UnmountAfterFade |})
     /\ (modalVisible (self w) && unmountPending (self w) = true ->
         modalVisible (self w') = false
         /\ animation (maskOpacity (self w')) = None))
  /\ (forall w',
        step easing OnShow w = Some w' ->
        modalVisible (self w) = true
        /\ value (maskOpacity (self w')) = value (maskOpacity (self w))
        /\ (unmountPending (self w) = false ->
            modalVisible (self w') = true
            /\ animation (maskOpacity (self w'))
               = Some {| fromValue := value (maskOpacity (self w));
                         toValue := propOpacity (self w);
                         duration := 88; elapsed := 0; onEnd := None |})
        /\ (unmountPending (self w) = true ->
            modalVisible (self w') = false
            /\ animation (maskOpacity (self w')) = None))
  /\ (forall w',
        visible (props (self w)) = false ->
        step easing (SetVisible true) w = Some w' ->
        maskOpacity (self w') = maskOpacity (self w)
        /\ modalVisible (self w') = true
        /\ (forall a,
              animation (maskOpacity (self w)) = Some a -> onEnd a <> None ->
              exists w'',
                run easing (frames (88 - elapsed a)) w' = Some w''
                /\ visible (props (self w'')) = true
                /\ modalVisible (self w'') = false
                /\ maskOpacity (self w'') = {| value := 0; animation := None |})).
Proof.
  intro Hrun.
  pose proof (run_consistent es _ _ (mount_consistent p) Hrun) as Hcons.
  assert (Hstarted : forall m' a',
            maskOpacity m' = {| value := value (maskOpacity (self w));
                                animation := Some a' |} ->
            modalVisible m'
            = (if unmountPending (self w) then false else modalVisible (self w)) ->
            value (maskOpacity (rerender (self w) m')) = value (maskOpacity (self w))
            /\ (modalVisible (self w) && unmountPending (self w) = false ->
                modalVisible (rerender (self w) m') = modalVisible (self w)
                /\ animation (maskOpacity (rerender (self w) m')) = Some a')
            /\ (modalVisible (self w) && unmountPending (self w) = true ->
                modalVisible (rerender (self w) m') = false
                /\ animation (maskOpacity (rerender (self w) m')) = None)).
  { intros m' a' Hm Hmv.
    destruct (rerender_fields (self w) m') as (_ & Hmv' & Hv').
    rewrite Hv', Hmv', Hm, Hmv. cbn [value]. split; [reflexivity |]. split.
    - intro H. rewrite rerender_id, Hm.
      + split; [| reflexivity].
        destruct (modalVisible (self w)); [| destruct (unmountPending (self w)); reflexivity].
        cbn [andb] in H. rewrite H. reflexivity.
      + rewrite Hmv. destruct (modalVisible (self w)); [| left; reflexivity].
        cbn [andb] in H. rewrite H. right. left. reflexivity.
    - intro H. apply andb_prop in H. destruct H as [H1 H2]. rewrite H2.
      split; [reflexivity |].
      unfold rerender. rewrite H1, Hmv, H2. cbn [andb negb].
      apply stopAnimation_fields. }
  repeat apply conj.
  - intros w' Hv Hstep.
    destruct (step_handle _ _ _ Hstep) as (w1 & Hh & ->).
    simpl in Hh. injection Hh as <-. unfold rerendered. cbn [self].
    destruct (receiveVisible_fields false (self w))
      as [(Hb & _) | [(Hb & _) | (_ & _ & Hm & Hmv)]]; try congruence.
    apply (Hstarted _ _ Hm Hmv).
  - intros w' Hstep.
    destruct (step_handle _ _ _ Hstep) as (w1 & Hh & ->).
    simpl in Hh. destruct (presented w) eqn:Hpr; try discriminate Hh.
    injection Hh as <-. unfold rerendered. cbn [self].
    assert (Hmvw : modalVisible (self w) = true).
    { destruct Hcons as [_ Hnat]. destruct (modalVisible (self w)); [reflexivity |].
      destruct Hnat as [_ H]. rewrite (H eq_refl) in Hpr. discriminate Hpr. }
    split; [exact Hmvw |].
    destruct (onShow_fields (self w)) as (_ & Hm & Hmv).
    destruct (Hstarted _ _ Hm Hmv) as (H1 & H2 & H3). rewrite Hmvw in *.
    split; [exact H1 |]. split.
    + intro H. apply H2. exact H.
    + intro H. apply H3. exact H.
  - intros w' Hv Hstep.
    pose proof (step_consistent _ _ _ Hcons Hstep) as [Hanim' Hnat'].
    destruct (receiveVisible_fields true (self w))
      as [(Hb & _) | [(_ & _ & Hm & Hmv) | (Hb & _)]]; try congruence.
    rewrite (step_of_handle (SetVisible true) w _ eq_refl) in Hstep
      by (right; left; exact Hmv).
    injection Hstep as <-. cbn [self] in *.
    split; [exact Hm |]. split; [exact Hmv |].
    intros a Ha Hend.
    set (w' := {| self := receiveVisible true (self w);
                  presented := render (presented w) (receiveVisible true (self w));
                  clock := clock w |}) in *.
    assert (Ha' : animation (maskOpacity (self w')) = Some a)
      by (unfold w'; cbn [self]; rewrite Hm; exact Ha).
    destruct (Hanim' a) as (Hd & He & Ht).
    { rewrite Hm. exact Ha. }
    destruct (run_frames_finish w' a Hnat' Ha' Hd He)
      as (w'' & Hrun'' & Hp & Hmv'' & Hm'' & _).
    exists w''. split; [exact Hrun'' |].
    rewrite Hp, Hmv'', Hm''. unfold w'; cbn [self]. rewrite receiveVisible_props.
    rewrite (Ht Hend). destruct (onEnd a); [| congruence]. repeat split.
Qed.

(** C3, as the code has it: once nothing is left in flight, a modal
    whose [visible] was last set to false is unmounted; one whose
    [visible] was last set to true (or that was constructed with it) is
    mounted, provided no fade-out was still in flight when that request
    came. *)
Theorem mounted_after_settling (p : IModalProps) (es : list event) (w : World) :
  run easing es (mount p) = Some w ->
  (stable w = true ->
   visible (props (self w)) = false -> modalVisible (self w) = false)
  /\ (forall es1 es2 w1,
        es = es1 ++ SetVisible true :: es2 ->
        run easing es1 (mount p) = Some w1 ->
        visible (props (self w1)) = false ->
        unmountPending (self w1) = false ->
        untouched es2 = true ->
        visible (props (self w)) = true /\ modalVisible (self w) = true)
  /\ (visible p = true -> untouched es = true ->
      visible (props (self w)) = true /\ modalVisible (self w) = true).
Proof.
  intro Hrun. repeat apply conj.
  - intros Hstable Hv.
    assert (Hcl : closing w).
    { apply (run_invariant closing step_closing es _ _ (mount_closing p) Hrun). }
    destruct (Hcl Hv) as [H | H]; [exact H |].
    unfold stable in Hstable. unfold unmountPending in H.
    destruct (animation (maskOpacity (self w))); [| discriminate H].
    discriminate Hstable.
  - intros es1 es2 w1 -> Hrun1 Hv Hpend Hes2.
    rewrite run_app, Hrun1 in Hrun. cbn [run] in Hrun.
    destruct (receiveVisible_fields true (self w1))
      as [(Hb & _) | [(_ & _ & Hm & Hmv) | (Hb & _)]]; try congruence.
    rewrite (step_of_handle (SetVisible true) w1 _ eq_refl) in Hrun
      by (right; left; exact Hmv).
    set (w2 := {| self := receiveVisible true (self w1);
                  presented := render (presented w1) (receiveVisible true (self w1));
                  clock := clock w1 |}) in *.
    split.
    + rewrite (run_untouched_props es2 w2 w Hes2 Hrun).
      unfold w2; cbn [self]. rewrite receiveVisible_props. reflexivity.
    + apply (run_staysMounted es2 w2 w Hes2); [| exact Hrun].
      unfold staysMounted, w2; cbn [self]. split; [exact Hmv |].
      unfold unmountPending in *. rewrite Hm. exact Hpend.
  - intros Hv Hes. split.
    + rewrite (run_untouched_props es (mount p) w Hes Hrun).
      unfold mount, constructor, handleVisibleChange. cbn [self]. rewrite Hv. exact Hv.
    + apply (run_staysMounted es (mount p) w Hes); [| exact Hrun].
      unfold staysMounted, mount, constructor, handleVisibleChange. cbn [self].
      rewrite Hv. split; reflexivity.
Qed.

(** C7, as the code has it: the fade-in is started by [onShow], which
    comes only to a modal that has been mounted, and the mount step
    itself leaves the mask alone; the modal is unmounted only by the
    callback of a fade-out, which runs when the fade-out completes its
    88 time units, or earlier, when a newer animation stops it. *)
Theorem mount_before_fade_in_unmount_at_fade_out_end
  (p : IModalProps) (es : list event) (w : World) (e : event) (w' : World) :
  run easing es (mount p) = Some w ->
  step easing e w = Some w' ->
  (e = OnShow -> modalVisible (self w) = true)
  /\ (forall m, modalVisible (handleVisibleChange true m) = true
                /\ maskOpacity (handleVisibleChange true m) = maskOpacity m)
  /\ (modalVisible (self w) = true -> modalVisible (self w') = false ->
      exists a,
        animation (maskOpacity (self w)) = Some a
        /\ onEnd a = Some UnmountAfterFade
        /\ toValue a = 0
        /\ ((e = Frame /\ S (elapsed a) = 88%nat
             /\ value (maskOpacity (self w')) = 0)
            \/ (e <> Frame /\ (elapsed a < 88)%nat
                /\ value (maskOpacity (self w')) = value (maskOpacity (self w))))).
Proof.
  intros Hrun Hstep.
  pose proof (run_consistent es _ _ (mount_consistent p) Hrun) as [Hanim Hnat].
  assert (Hpend : unmountPending (self w) = true ->
                  exists a, animation (maskOpacity (self w)) = Some a
                            /\ onEnd a = Some UnmountAfterFade
                            /\ toValue a = 0 /\ (elapsed a < 88)%nat).
  { unfold unmountPending. intro H.
    destruct (animation (maskOpacity (self w))) as [a |] eqn:Ha; [| discriminate H].
    destruct (Hanim a eq_refl) as (_ & He & Ht).
    exists a. destruct (onEnd a) as [[] |] eqn:Hend; [| discriminate H].
    repeat split; [apply Ht; discriminate | exact He]. }
  destruct (step_handle _ _ _ Hstep) as (w1 & Hh & ->). clear Hstep.
  rename Hh into Hstep.
  destruct (rerendered_fields w w1) as (_ & Hmv1 & Hv1 & _). rewrite Hmv1, Hv1.
  clear Hmv1 Hv1. revert Hstep. generalize w1 as w'. clear w1. intros w' Hstep.
  repeat apply conj.
  - intros ->. simpl in Hstep.
    destruct (presented w) eqn:Hpr; try discriminate Hstep.
    destruct (modalVisible (self w)); [reflexivity |].
    destruct Hnat as [_ H]. discriminate (H eq_refl).
  - intro m. split; reflexivity.
  - intros Hmv Hmv'. destruct e as [b | |]; simpl in Hstep.
    + injection Hstep as <-. cbn [self] in *.
      destruct (receiveVisible_fields b (self w))
        as [(_ & _ & Hmv1) | [(_ & _ & _ & Hmv1) | (_ & _ & Hm & Hmv1)]];
        try congruence.
      rewrite Hmv1 in Hmv'.
      destruct (unmountPending (self w)) eqn:E; [| congruence].
      destruct (Hpend eq_refl) as (a & Ha & Hend & Ht & He).
      exists a. repeat split; try assumption.
      right. repeat split; [discriminate | exact He | rewrite Hm; reflexivity].
    + destruct (presented w); try discriminate Hstep.
      injection Hstep as <-. cbn [self] in *.
      destruct (onShow_fields (self w)) as (_ & Hm & Hmv1).
      rewrite Hmv1 in Hmv'.
      destruct (unmountPending (self w)) eqn:E; [| congruence].
      destruct (Hpend eq_refl) as (a & Ha & Hend & Ht & He).
      exists a. repeat split; try assumption.
      right. repeat split; [discriminate | exact He | rewrite Hm; reflexivity].
    + injection Hstep as <-. cbn [self] in *.
      destruct (animation (maskOpacity (self w))) as [a |] eqn:Ha.
      * destruct (Hanim a eq_refl) as (Hd & He & Ht).
        destruct (Nat.lt_ge_cases (S (elapsed a)) 88) as [Hlt | Hge].
        -- rewrite (frame_progress (self w) a Ha Hd Hlt) in Hmv'.
           cbn [modalVisible withMask] in Hmv'. congruence.
        -- rewrite (frame_finish (self w) a Ha) in * by lia.
           match type of Hmv' with context [callOpt ?c ?x] =>
             destruct (callOpt_fields c x) as (_ & Hm' & Hmv1) end.
           rewrite Hmv1 in Hmv'. cbn [modalVisible withMask] in Hmv'.
           exists a. destruct (onEnd a) as [[] |] eqn:Hend; [| congruence].
           repeat split; [apply Ht; discriminate |].
           left. repeat split; [lia |].
           rewrite Hm'. cbn [maskOpacity withMask value]. apply Ht. discriminate.
      * rewrite (frame_idle (self w) Ha) in Hmv'. congruence.
Qed.


(** ** The timed scenario *)

Lemma progress_bounds (k : nat) :
  (0 < k < 88)%nat -> 0 < progress k /\ progress k < 1.
Proof.
  intros [H0 H1]. unfold progress. split.
  - apply Qlt_shift_div_l.
    + reflexivity.
    + rewrite Qmult_0_l. change 0 with (inject_Z 0). rewrite <- Zlt_Qlt. lia.
  - apply Qlt_shift_div_r.
    + reflexivity.
    + rewrite Qmult_1_l. rewrite <- Zlt_Qlt. lia.
Qed.

(** With nothing in flight, time passing changes the clock only. *)
Lemma run_frames_idle (n : nat) : forall (w : World),
  (presented w = Hidden <-> modalVisible (self w) = false) ->
  animation (maskOpacity (self w)) = None ->
  run easing (frames n) w
  = Some {| self := self w; presented := presented w; clock := (clock w + n)%nat |}.
Proof.
  induction n as [| n IH]; intros w Hnat Ha.
  - simpl. rewrite Nat.add_0_r. destruct w; reflexivity.
  - change (frames (S n)) with (Frame :: frames n). cbn [run].
    rewrite (step_Frame w), (frame_idle (self w) Ha), (render_keeps _ _ Hnat).
    rewrite IH by (cbn [self presented]; assumption).
    cbn [self presented clock]. f_equal. f_equal. lia.
Qed.



End Runs.

(** C10: [propOpacity] is [props.opacity] itself whenever that is a
    number other than zero (the truthy case), and 0.5 when it is zero or
    left out (the falsy cases); so an owner passing [opacity = 0] gets
    0.5, the target is never 0, and neither is the target of the fade-in
    that [onShow] starts. *)
Theorem propOpacity_falls_back_when_falsy (m : BetterModal) :
  (forall q, opacity (props m) = Some q -> ~ q == 0 ->
     truthy (opacity (props m)) = true /\ propOpacity m = q)
  /\ (forall q, opacity (props m) = Some q -> q == 0 ->
        truthy (opacity (props m)) = false /\ propOpacity m = 1 # 2)
  /\ (opacity (props m) = None ->
      truthy (opacity (props m)) = false /\ propOpacity m = 1 # 2)
  /\ propOpacity m
     = (if truthy (opacity (props m))
        then match opacity (props m) with Some q => q | None => 1 # 2 end
        else 1 # 2)
  /\ ~ propOpacity m == 0
  /\ (forall a, animation (maskOpacity (onShow m)) = Some a ->
        toValue a = propOpacity m /\ ~ toValue a == 0).
Proof.
  assert (Hnz : ~ propOpacity m == 0).
  { unfold propOpacity, js_or, truthy.
    destruct (opacity (props m)) as [q |]; [| intro H; discriminate H].
    destruct (Qeq_bool q 0) eqn:E; simpl.
    - intro H; discriminate H.
    - apply Qeq_bool_neq. exact E. }
  repeat apply conj.
  - intros q Ho Hq. unfold propOpacity, js_or, truthy. rewrite Ho.
    destruct (Qeq_bool q 0) eqn:E.
    + contradiction Hq. apply Qeq_bool_eq. exact E.
    + split; reflexivity.
  - intros q Ho Hq. unfold propOpacity, js_or, truthy. rewrite Ho.
    rewrite (Qeq_eq_bool _ _ Hq). split; reflexivity.
  - intro Ho. unfold propOpacity, js_or, truthy. rewrite Ho. split; reflexivity.
  - unfold propOpacity, js_or. destruct (opacity (props m)) as [q |]; [| reflexivity].
    destruct (truthy (Some q)); reflexivity.
  - exact Hnz.
  - intros a Ha. destruct (onShow_fields m) as (_ & Hm & _).
    rewrite Hm in Ha. simpl in Ha. injection Ha as <-. simpl. split; [reflexivity | exact Hnz].
Qed.

(** ** Runs that the spec's wording does not allow for *)

(** Against C1: open, let the fade-in finish, then close, reopen and
    close again at once.  The second close stops the first fade-out,
    whose callback unmounts the modal on the spot, the mask still at
    0.5. *)
Lemma unmount_while_mask_at_half :
  exists w w',
    run linear (frames 88 ++ [SetVisible true; OnShow] ++ frames 88
                ++ [SetVisible false; SetVisible true])
        (mount {| visible := false; opacity := None |}) = Some w
    /\ step linear (SetVisible false) w = Some w'
    /\ modalVisible (self w) = true
    /\ modalVisible (self w') = false
    /\ value (maskOpacity (self w')) = 1 # 2
    /\ ~ value (maskOpacity (self w')) == 0.
Proof.
  eexists. eexists. split; [vm_compute; reflexivity |].
  split; [vm_compute; reflexivity |].
  do 3 (split; [reflexivity |]).
  intro H. discriminate H.
Qed.

(** Against C2: [visible] turns true again 20 time units into a
    fade-out.  The animation is still the fade-out toward 0 with its
    callback, and 68 time units later the callback unmounts the modal
    although [visible] is true. *)
Lemma fade_out_callback_fires_after_reopen :
  exists w a w',
    run linear (frames 88 ++ [SetVisible true; OnShow] ++ frames 88
                ++ [SetVisible false] ++ frames 20 ++ [SetVisible true])
        (mount {| visible := false; opacity := None |}) = Some w
    /\ visible (props (self w)) = true
    /\ animation (maskOpacity (self w)) = Some a
    /\ toValue a = 0 /\ elapsed a = 20%nat /\ onEnd a = Some UnmountAfterFade
    /\ run linear (frames 68) w = Some w'
    /\ visible (props (self w')) = true
    /\ modalVisible (self w') = false.
Proof.
  eexists. eexists. eexists. split; [vm_compute; reflexivity |].
  do 5 (split; [reflexivity |]).
  split; [vm_compute; reflexivity |].
  split; reflexivity.
Qed.

(** Against C3: close and reopen at once, then wait.  Everything has
    settled, the last request was for [visible = true], and the modal is
    unmounted. *)
Lemma reopened_modal_settles_unmounted :
  exists w,
    run linear (frames 88 ++ [SetVisible true; OnShow] ++ frames 88
                ++ [SetVisible false; SetVisible true] ++ frames 88)
        (mount {| visible := false; opacity := None |}) = Some w
    /\ stable w = true
    /\ visible (props (self w)) = true
    /\ modalVisible (self w) = false.
Proof.
  eexists. split; [vm_compute; reflexivity |].
  split; [reflexivity |]. split; reflexivity.
Qed.

(** Against C7: a fade-out 10 time units old is stopped by the next
    close request, and the modal is unmounted then, 78 time units before
    that fade-out would have completed. *)
Lemma unmount_before_fade_out_completes :
  exists w a w',
    run linear (frames 88 ++ [SetVisible true; OnShow] ++ frames 30
                ++ [SetVisible false] ++ frames 10 ++ [SetVisible true])
        (mount {| visible := false; opacity := None |}) = Some w
    /\ modalVisible (self w) = true
    /\ animation (maskOpacity (self w)) = Some a
    /\ toValue a = 0 /\ duration a = 88%nat /\ elapsed a = 10%nat
    /\ step linear (SetVisible false) w = Some w'
    /\ modalVisible (self w') = false
    /\ 0 < value (maskOpacity (self w')).
Proof.
  eexists. eexists. eexists. split; [vm_compute; reflexivity |].
  do 5 (split; [reflexivity |]).
  split; [vm_compute; reflexivity |].
  split; reflexivity.
Qed.


(** ** The theorems at work on concrete runs *)

(** A full open and close, nothing cut short: the run is calm and ends
    unmounted with the mask at 0. *)
Lemma unmount_at_zero_unless_cut_short_witness :
  exists w,
    run linear (frames 88 ++ [SetVisible true; OnShow] ++ frames 88
                ++ [SetVisible false] ++ frames 88)
        (mount {| visible := false; opacity := None |}) = Some w
    /\ calm linear (frames 88 ++ [SetVisible true; OnShow] ++ frames 88
                    ++ [SetVisible false] ++ frames 88)
         (mount {| visible := false; opacity := None |}) = true
    /\ modalVisible (self w) = false
    /\ value (maskOpacity (self w)) == 0.
Proof.
  eexists. split; [vm_compute; reflexivity |].
  split; [vm_compute; reflexivity |].
  split; [reflexivity |].
  apply (proj2 (unmount_at_zero_unless_cut_short linear
                  {| visible := false; opacity := None |}
                  (frames 88 ++ [SetVisible true; OnShow] ++ frames 88
                   ++ [SetVisible false] ++ frames 88) _
                  ltac:(vm_compute; reflexivity))).
  - vm_compute. reflexivity.
  - reflexivity.
Defined.

(** A close request 30 time units into a fade-in starts the fade-out
    from the opacity reached by then. *)
Lemma requests_redirect_but_never_cancel_witness :
  exists w,
    run linear (frames 88 ++ [SetVisible true; OnShow] ++ frames 30)
        (mount {| visible := false; opacity := None |}) = Some w
    /\ value (maskOpacity (self w)) = 15 # 88
    /\ forall w',
         visible (props (self w)) = true ->
         step linear (SetVisible false) w = Some w' ->
         value (maskOpacity (self w')) = value (maskOpacity (self w))
         /\ (modalVisible (self w) && unmountPending (self w) = false ->
             modalVisible (self w') = modalVisible (self w)
             /\ animation (maskOpacity (self w'))
                = Some {| fromValue := value (maskOpacity (self w)); toValue := 0;
                          duration := 88; elapsed := 0;
                          onEnd := Some UnmountAfterFade |})
         /\ (modalVisible (self w) && unmountPending (self w) = true ->
             modalVisible (self w') = false
             /\ animation (maskOpacity (self w')) = None).
Proof.
  eexists. split; [vm_compute; reflexivity |].
  split; [reflexivity |].
  apply (proj1 (requests_redirect_but_never_cancel linear
                  {| visible := false; opacity := None |}
                  (frames 88 ++ [SetVisible true; OnShow] ++ frames 30) _
                  ltac:(vm_compute; reflexivity))).
Defined.

(** A full open and close settles unmounted. *)
Lemma mounted_after_settling_witness :
  exists w,
    run linear (frames 88 ++ [SetVisible true; OnShow] ++ frames 88
                ++ [SetVisible false] ++ frames 88)
        (mount {| visible := false; opacity := None |}) = Some w
    /\ stable w = true
    /\ visible (props (self w)) = false
    /\ modalVisible (self w) = false.
Proof.
  eexists. split; [vm_compute; reflexivity |].
  split; [reflexivity |]. split; [reflexivity |].
  apply (proj1 (mounted_after_settling linear
                  {| visible := false; opacity := None |}
                  (frames 88 ++ [SetVisible true; OnShow] ++ frames 88
                   ++ [SetVisible false] ++ frames 88) _
                  ltac:(vm_compute; reflexivity))); reflexivity.
Defined.

(** [onShow] arriving after an open request finds the modal mounted. *)
Lemma mount_before_fade_in_unmount_at_fade_out_end_witness :
  exists w w',
    run linear (frames 88 ++ [SetVisible true] ++ frames 5)
        (mount {| visible := false; opacity := None |}) = Some w
    /\ step linear OnShow w = Some w'
    /\ modalVisible (self w) = true.
Proof.
  eexists. eexists. split; [vm_compute; reflexivity |].
  split; [vm_compute; reflexivity |].
  apply (proj1 (mount_before_fade_in_unmount_at_fade_out_end linear
                  {| visible := false; opacity := None |}
                  (frames 88 ++ [SetVisible true] ++ frames 5) _ OnShow _
                  ltac:(vm_compute; reflexivity) ltac:(vm_compute; reflexivity))).
  reflexivity.
Defined.


(** An owner passing [opacity = 0.3], and one passing [opacity = 0]. *)
Lemma propOpacity_falls_back_when_falsy_witness :
  propOpacity {| props := {| visible := true; opacity := Some (3 # 10) |};
                 modalVisible := false;
                 maskOpacity := {| value := 0; animation := None |} |}
  = 3 # 10
  /\ propOpacity {| props := {| visible := true; opacity := Some 0 |};
                    modalVisible := false;
                    maskOpacity := {| value := 0; animation := None |} |}
     = 1 # 2.
Proof.
  split.
  - apply (proj1 (propOpacity_falls_back_when_falsy
                    {| props := {| visible := true; opacity := Some (3 # 10) |};
                       modalVisible := false;
                       maskOpacity := {| value := 0; animation := None |} |})
             (3 # 10) eq_refl).
    intro H. discriminate H.
  - apply (proj1 (proj2 (propOpacity_falls_back_when_falsy
                           {| props := {| visible := true; opacity := Some 0 |};
                              modalVisible := false;
                              maskOpacity := {| value := 0; animation := None |} |}))
             0 eq_refl).
    reflexivity.
Defined.

End ModalFacts.

(* ===================================================================== *)
(** * What a history of store events leaves behind *)
(* ===================================================================== *)

Module FilterHistoryFacts.

Import Filter FilterHistory.

Section Generic.

Context {ITag ICategory Pagination : Type}.

Abbreviation Store := (Filter.Store ITag ICategory).
Abbreviation TFilterValue := (Filter.TFilterValue ITag ICategory).
Abbreviation event := (Filter.event ITag ICategory Pagination).

Lemma run_from_cons (e : event) (es : list event) (s : Store) (sent : list request) :
  fst (run_from (e :: es) s sent)
  = fst (run_from es (after e s) (sent ++ snd (fst (step e s)))).
Proof.
  unfold after. simpl. destruct (step e s) as [[s' reqs] os]. reflexivity.
Qed.

Lemma after_slot (type : EFilterType) (e : event) (s : Store) :
  slot type (filterValues (after e s))
  = match selectionFor type e with
    | Some v => Some v
    | None => slot type (filterValues s)
    end.
Proof.
  unfold after. destruct e as [t v | | visible | r | r]; simpl; try reflexivity.
  - destruct t, type; reflexivity.
  - destruct r; reflexivity.
  - destruct r; reflexivity.
Qed.

Lemma run_from_slot (type : EFilterType) (es : list event) :
  forall (s : Store) (sent : list request),
  slot type (filterValues (fst (run_from es s sent)))
  = match latest (selectionFor type) es with
    | Some v => Some v
    | None => slot type (filterValues s)
    end.
Proof.
  induction es as [| e es IH]; intros s sent.
  - reflexivity.
  - rewrite run_from_cons, IH. cbn [latest].
    destruct (latest (selectionFor type) es); [reflexivity |].
    apply after_slot.
Qed.

(** X1.  Whatever happens to the store (selections of other types,
    clears, the modal flag, loads coming back), the slot of a type holds
    the value most recently selected for that type, or what it held at
    the start if none was. *)
Theorem slot_holds_latest_selection (type : EFilterType) (es : list event)
  (s : Store) (sent : list request) :
  slot type (filterValues (fst (run_from es s sent)))
  = match latest (selectionFor type) es with
    | Some v => Some v
    | None => slot type (filterValues s)
    end.
Proof. apply run_from_slot. Qed.

Lemma no_selection_for (type : EFilterType) (es : list event) :
  latest selection es = None -> latest (selectionFor type) es = None.
Proof.
  induction es as [| e es IH]; [reflexivity |]. cbn [latest].
  destruct (latest selection es); [discriminate |]. rewrite (IH eq_refl).
  destruct e; simpl; try reflexivity. discriminate.
Qed.

Lemma latest_selection_for (es : list event) (type : EFilterType) (v : TFilterValue) :
  latest selection es = Some (type, v) -> latest (selectionFor type) es = Some v.
Proof.
  induction es as [| e es IH]; [discriminate |]. cbn [latest].
  destruct (latest selection es) as [[t' v'] |] eqn:E.
  - intro H. rewrite (IH H). reflexivity.
  - rewrite (no_selection_for type es E).
    destruct e; simpl; try discriminate.
    intro H. injection H as -> ->. destruct type; reflexivity.
Qed.

Lemma after_type_active (e : event) (s : Store) :
  filterType (after e s)
  = match selection e with Some (t, _) => t | None => filterType s end
  /\ filterActive (after e s)
     = match switch e with Some b => b | None => filterActive s end.
Proof.
  unfold after. destruct e as [t v | | visible | r | r]; simpl; try (split; reflexivity);
    destruct r; split; reflexivity.
Qed.

Lemma run_from_type_active (es : list event) : forall (s : Store) (sent : list request),
  filterType (fst (run_from es s sent))
  = match latest selection es with Some (t, _) => t | None => filterType s end
  /\ filterActive (fst (run_from es s sent))
     = match latest switch es with Some b => b | None => filterActive s end.
Proof.
  induction es as [| e es IH]; intros s sent.
  - split; reflexivity.
  - rewrite run_from_cons. destruct (IH (after e s) (sent ++ snd (fst (step e s)))) as [Ht Ha].
    rewrite Ht, Ha. cbn [latest].
    destruct (after_type_active e s) as [Ht' Ha']. split.
    + destruct (latest selection es) as [[t v] |]; [reflexivity |].
      rewrite Ht'. destruct (selection e) as [[t v] |]; reflexivity.
    + destruct (latest switch es); [reflexivity |].
      rewrite Ha'. destruct (switch e); reflexivity.
Qed.

(** X2.  Over the whole life of a store, from its construction:
    [filterValue] is the value of the most recent selection, of whatever
    type, and is absent only if nothing was ever selected; clearing does
    not reset it.  [filterType] is the type of that selection
    ([Category] before the first), and [filterActive] tells whether the
    last selection came after the last clear. *)
Theorem filterValue_is_latest_selection (es : list event) :
  filterValue (fst (run es)) = option_map snd (latest selection es)
  /\ filterType (fst (run es))
     = match latest selection es with Some (t, _) => t | None => Category end
  /\ filterActive (fst (run es))
     = match latest switch es with Some b => b | None => false end.
Proof.
  unfold run.
  destruct (run_from_type_active es (fst (constructor (ITag := ITag) (ICategory := ICategory))) (snd (constructor (ITag := ITag) (ICategory := ICategory)))) as [Ht Ha].
  split; [| split; [exact Ht | exact Ha]].
  rewrite FilterFacts.filterValue_slot, run_from_slot, Ht.
  destruct (latest selection es) as [[t v] |] eqn:E.
  - cbv beta iota. rewrite (latest_selection_for es t v E). reflexivity.
  - change (filterType (fst (constructor (ITag := ITag) (ICategory := ICategory))))
      with Category.
    rewrite (no_selection_for Category es E). reflexivity.
Qed.

Lemma after_lists (e : event) (s : Store) :
  tags (after e s)
  = match tagsDelivered e with Some l => l | None => tags s end
  /\ categories (after e s)
     = match categoriesDelivered e with Some l => l | None => categories s end.
Proof.
  unfold after. destruct e as [t v | | visible | r | r]; simpl; try (split; reflexivity);
    destruct r; split; reflexivity.
Qed.

Lemma run_from_lists (es : list event) : forall (s : Store) (sent : list request),
  tags (fst (run_from es s sent))
  = match latest tagsDelivered es with Some l => l | None => tags s end
  /\ categories (fst (run_from es s sent))
     = match latest categoriesDelivered es with Some l => l | None => categories s end.
Proof.
  induction es as [| e es IH]; intros s sent.
  - split; reflexivity.
  - rewrite run_from_cons. destruct (IH (after e s) (sent ++ snd (fst (step e s)))) as [Ht Hc].
    rewrite Ht, Hc. cbn [latest].
    destruct (after_lists e s) as [Ht' Hc']. split.
    + destruct (latest tagsDelivered es); [reflexivity | exact Ht'].
    + destruct (latest categoriesDelivered es); [reflexivity | exact Hc'].
Qed.

Lemma after_sameFilter (e : event) (s1 s2 : Store) :
  sameFilter s1 s2 ->
  sameFilter (after e s1) (if isLoad e then s2 else after e s2).
Proof.
  unfold sameFilter, after. intros (Ha & Ht & Hv & Hm).
  destruct e as [t v | | visible | r | r]; simpl;
    try (destruct r; simpl); rewrite ?Ha, ?Ht, ?Hv, ?Hm; repeat split.
Qed.

Lemma run_from_sameFilter (es : list event) :
  forall (s1 s2 : Store) (sent1 sent2 : list request),
  sameFilter s1 s2 ->
  sameFilter (fst (run_from es s1 sent1))
             (fst (run_from (filter (fun e => negb (isLoad e)) es) s2 sent2)).
Proof.
  induction es as [| e es IH]; intros s1 s2 sent1 sent2 H.
  - exact H.
  - rewrite run_from_cons. pose proof (after_sameFilter e s1 s2 H) as H'.
    cbn [filter]. destruct (isLoad e); cbn [negb].
    + apply IH. exact H'.
    + rewrite run_from_cons. apply IH. exact H'.
Qed.

(** X3.  The loads and the filter do not touch each other: each list is
    what the latest fulfilled load of its kind delivered (empty before
    the first), whatever actions came in between and in whatever order
    the two loads came back; and the filter fields and the modal flag
    are what they would be had no load ever come back. *)
Theorem loads_and_filter_are_independent (es : list event) :
  tags (fst (run es))
  = match latest tagsDelivered es with Some l => l | None => [] end
  /\ categories (fst (run es))
     = match latest categoriesDelivered es with Some l => l | None => [] end
  /\ (let quiet := fst (run (filter (fun e => negb (isLoad e)) es)) in
      filterActive (fst (run es)) = filterActive quiet
      /\ filterType (fst (run es)) = filterType quiet
      /\ filterValues (fst (run es)) = filterValues quiet
      /\ modalVisible (fst (run es)) = modalVisible quiet).
Proof.
  unfold run.
  destruct (run_from_lists es (fst (constructor (ITag := ITag) (ICategory := ICategory))) (snd (constructor (ITag := ITag) (ICategory := ICategory)))) as [Ht Hc].
  split; [exact Ht |]. split; [exact Hc |].
  apply run_from_sameFilter. repeat split.
Qed.

(** X4.  [isActiveTagOrCategoryFilter] holds exactly when the filter is
    on and its type is not [Search]; so it holds after selecting a tag
    or a category, and fails after a search selection or a clear. *)
Theorem isActiveTagOrCategoryFilter_spec (s : Store) (v : TFilterValue) :
  (isActiveTagOrCategoryFilter s = true
   <-> filterActive s = true /\ filterType s <> Search)
  /\ isActiveTagOrCategoryFilter (updateActiveFilter Tag v s) = true
  /\ isActiveTagOrCategoryFilter (updateActiveFilter Category v s) = true
  /\ isActiveTagOrCategoryFilter (updateActiveFilter Search v s) = false
  /\ isActiveTagOrCategoryFilter (clearActiveFilter s) = false.
Proof.
  repeat split; try reflexivity.
  - unfold isActiveTagOrCategoryFilter in H. apply andb_prop in H. apply H.
  - unfold isActiveTagOrCategoryFilter in H. apply andb_prop in H.
    destruct H as [_ H]. intro E. rewrite E in H. discriminate H.
  - intros [Ha Ht]. unfold isActiveTagOrCategoryFilter. rewrite Ha.
    destruct (filterType s); try reflexivity. contradiction Ht. reflexivity.
Qed.

End Generic.

End FilterHistoryFacts.

(* ===================================================================== *)
(** * Properties of the archive filter view *)
(* ===================================================================== *)

Module FilterViewFacts.

Import Filter FilterView.

Lemma replaceFirst_unfold (pattern replacement s : string) :
  replaceFirst pattern replacement s
  = if String.prefix pattern s
    then (replacement ++ dropChars (String.length pattern) s)%string
    else match s with
         | EmptyString => EmptyString
         | String c s' => String c (replaceFirst pattern replacement s')
         end.
Proof. destruct s; reflexivity. Qed.

Lemma prefix_app (p s : string) : String.prefix p (p ++ s) = true.
Proof.
  induction p as [| c p IH]; simpl; [destruct s; reflexivity |].
  destruct (Ascii.ascii_dec c c) as [_ | H]; [exact IH | contradiction H; reflexivity].
Qed.

Lemma dropChars_app (p s : string) : dropChars (String.length p) (p ++ s) = s.
Proof. induction p as [| c p IH]; simpl; [reflexivity | exact IH]. Qed.

(** A string that starts with the pattern loses exactly that first
    occurrence, later ones stay. *)
Lemma replaceFirst_prefix (pattern replacement s : string) :
  replaceFirst pattern replacement (pattern ++ s) = (replacement ++ s)%string.
Proof. rewrite replaceFirst_unfold, prefix_app, dropChars_app. reflexivity. Qed.

Lemma find_skip {A : Type} (f : A -> bool) (pre l : list A) :
  (forall x, In x pre -> f x = false) -> find f (pre ++ l) = find f l.
Proof.
  induction pre as [| x pre IH]; intro H; simpl; [reflexivity |].
  rewrite (H x (or_introl eq_refl)). apply IH. intros y Hy. apply H. right. exact Hy.
Qed.

Lemma find_none {A : Type} (f : A -> bool) (l : list A) :
  (forall x, In x l -> f x = false) -> find f l = None.
Proof.
  intro H. rewrite <- (app_nil_r l). rewrite (find_skip f l [] H). reflexivity.
Qed.

Lemma not_icon (x : Extend.IExtend) :
  Extend.name x <> "icon"%string -> String.eqb (Extend.name x) "icon" = false.
Proof. intro H. apply String.eqb_neq. exact H. Qed.

Lemma getIconNameFromExtend_first (t : ITerm) (pre post : list Extend.IExtend)
  (e : Extend.IExtend) :
  extends t = pre ++ e :: post ->
  (forall x, In x pre -> Extend.name x <> "icon"%string) ->
  Extend.name e = "icon"%string ->
  getIconNameFromExtend (Some t)
  = orNull (option_map (replaceFirst "icon-" "") (Extend.value e)).
Proof.
  intros Hext Hpre He. unfold getIconNameFromExtend. rewrite Hext.
  replace (List.length (pre ++ e :: post) =? 0)%nat with false
    by (rewrite length_app; simpl; symmetry; apply Nat.eqb_neq; lia).
  rewrite find_skip by (intros x Hx; apply not_icon, Hpre, Hx).
  simpl. rewrite He. simpl. destruct (Extend.value e); reflexivity.
Qed.

(** X5.  The icon of an item is the value of its first extend named
    [icon], with the leading [icon-] taken off: whatever else the item
    carries, and even if the rest of the value contains [icon-] again. *)
Theorem getIconNameFromExtend_strips_prefix (t : ITerm)
  (pre post : list Extend.IExtend) (e : Extend.IExtend) (n : string) :
  extends t = pre ++ e :: post ->
  (forall x, In x pre -> Extend.name x <> "icon"%string) ->
  Extend.name e = "icon"%string ->
  Extend.value e = Some ("icon-" ++ n)%string ->
  n <> ""%string ->
  getIconNameFromExtend (Some t) = Some n.
Proof.
  intros Hext Hpre He Hv Hn.
  rewrite (getIconNameFromExtend_first t pre post e Hext Hpre He), Hv.
  cbn [option_map]. rewrite replaceFirst_prefix.
  destruct n; [contradiction Hn; reflexivity | reflexivity].
Qed.

(** X6.  There is no icon name when there is no item, when no extend of
    the item is named [icon] (in particular when it has none), and when
    the first extend named [icon] has no value, an empty one or just
    [icon-]: later extends named [icon] are not consulted. *)
Theorem getIconNameFromExtend_absent (t : ITerm) :
  getIconNameFromExtend None = None
  /\ ((forall x, In x (extends t) -> Extend.name x <> "icon"%string) ->
      getIconNameFromExtend (Some t) = None)
  /\ (forall pre e post,
        extends t = pre ++ e :: post ->
        (forall x, In x pre -> Extend.name x <> "icon"%string) ->
        Extend.name e = "icon"%string ->
        Extend.value e = None \/ Extend.value e = Some ""%string
        \/ Extend.value e = Some "icon-"%string ->
        getIconNameFromExtend (Some t) = None).
Proof.
  repeat split.
  - intro H. unfold getIconNameFromExtend.
    destruct (List.length (extends t) =? 0)%nat; [reflexivity |].
    rewrite find_none by (intros x Hx; apply not_icon, H, Hx). reflexivity.
  - intros pre e post Hext Hpre He Hv.
    rewrite (getIconNameFromExtend_first t pre post e Hext Hpre He).
    destruct Hv as [-> | [-> | ->]]; reflexivity.
Qed.

Lemma orNull_nonempty (x : option string) (n : string) :
  orNull x = Some n -> n <> ""%string.
Proof.
  destruct x as [[| c s] |]; simpl; intro H; try discriminate H.
  injection H as <-. discriminate.
Qed.

Lemma getIconNameFromExtend_nonempty (target : option ITerm) (n : string) :
  getIconNameFromExtend target = Some n -> n <> ""%string.
Proof.
  unfold getIconNameFromExtend. destruct target as [t |]; [| discriminate].
  destruct (List.length (extends t) =? 0)%nat; [discriminate |].
  apply orNull_nonempty.
Qed.

(** X7.  The icon drawn for an item of either list is never the empty
    name: it is the item's own icon name, which is never empty, or else
    the default of the list, [category] or [tag]. *)
Theorem iconName_never_empty (s : Store) (filter : filterEntry) (item : ITerm) :
  In filter (filters s) ->
  iconName filter item <> ""%string
  /\ (getIconNameFromExtend (Some item) = None ->
      iconName filter item = "category"%string \/ iconName filter item = "tag"%string).
Proof.
  intro Hin. unfold iconName.
  destruct (getIconNameFromExtend (Some item)) as [n |] eqn:E.
  - split; [apply (getIconNameFromExtend_nonempty _ _ E) | discriminate].
  - destruct Hin as [<- | [<- | []]]; simpl; split; try discriminate; auto.
Qed.

Lemma isActive_onPressItem (s : Store) (filter other : filterEntry) (item item' : ITerm) :
  isActive (onPressItem filter item s) other item'
  = EFilterType_eqb (type filter) (type other) && String.eqb (slug item) (slug item').
Proof.
  unfold isActive, onPressItem. simpl.
  rewrite FilterFacts.slot_setSlot_same.
  destruct (type filter); reflexivity.
Qed.

Lemma isActive_pressed (s : Store) (filter : filterEntry) (item : ITerm) :
  isActive (onPressItem filter item s) filter item = true.
Proof.
  rewrite isActive_onPressItem, String.eqb_refl. destruct (type filter); reflexivity.
Qed.

Lemma filterValue_onPressItem (s : Store) (filter : filterEntry) (item : ITerm) :
  filterValue (onPressItem filter item s) = Some (asValue (type filter) item).
Proof.
  rewrite FilterFacts.filterValue_slot. unfold onPressItem. simpl.
  apply FilterFacts.slot_setSlot_same.
Qed.

(** X8.  After an item is pressed, the highlighted items are exactly
    those of the list of the same type whose slug is the pressed item's
    (the pressed item among them); the store's flag for the modal is off
    and [filterValue] is the pressed item.  After the clear button no
    item is highlighted, and closing changes no highlight. *)
Theorem highlight_follows_the_press (s : Store) (filter other : filterEntry)
  (item item' : ITerm) :
  isActive (onPressItem filter item s) other item'
  = EFilterType_eqb (type filter) (type other) && String.eqb (slug item) (slug item')
  /\ isActive (onPressItem filter item s) filter item = true
  /\ modalVisible (onPressItem filter item s) = false
  /\ filterValue (onPressItem filter item s) = Some (asValue (type filter) item)
  /\ isActive (onPressClear s) other item' = false
  /\ isActive (onClose s) other item' = isActive s other item'.
Proof.
  repeat split.
  - apply isActive_onPressItem.
  - apply isActive_pressed.
  - apply filterValue_onPressItem.
Qed.

Section Examples.

Local Open Scope string_scope.

(** A tag with two extends before its icon. *)
Lemma getIconNameFromExtend_strips_prefix_witness :
  getIconNameFromExtend
    (Some {| _id := "5b2f"; name := "React"; slug := "react";
             extends := [ {| Extend.name := "background"; Extend.value := Some "#61dafb" |};
                          {| Extend.name := "icon"; Extend.value := Some "icon-react" |};
                          {| Extend.name := "icon"; Extend.value := Some "icon-other" |} ] |})
  = Some "react".
Proof.
  apply (getIconNameFromExtend_strips_prefix _
           [ {| Extend.name := "background"; Extend.value := Some "#61dafb" |} ]
           [ {| Extend.name := "icon"; Extend.value := Some "icon-other" |} ]
           {| Extend.name := "icon"; Extend.value := Some "icon-react" |}
           "react").
  - reflexivity.
  - intros x [<- | []]. discriminate.
  - reflexivity.
  - reflexivity.
  - discriminate.
Defined.

(** A category whose first icon extend is empty and whose second is not. *)
Lemma getIconNameFromExtend_absent_witness :
  getIconNameFromExtend
    (Some {| _id := "5b30"; name := "Code"; slug := "code";
             extends := [ {| Extend.name := "icon"; Extend.value := Some "icon-" |};
                          {| Extend.name := "icon"; Extend.value := Some "icon-code" |} ] |})
  = None.
Proof.
  apply (proj2 (proj2 (getIconNameFromExtend_absent _))
           []
           {| Extend.name := "icon"; Extend.value := Some "icon-" |}
           [ {| Extend.name := "icon"; Extend.value := Some "icon-code" |} ]).
  - reflexivity.
  - intros x [].
  - reflexivity.
  - right. right. reflexivity.
Defined.

(** A tag without extends is drawn with the default of the tag list. *)
Lemma iconName_never_empty_witness :
  iconName {| type := Tag; data := []; defaultIconName := "tag" |}
    {| _id := "5b31"; name := "Vue"; slug := "vue"; extends := [] |}
  <> "".
Proof.
  apply (proj1 (iconName_never_empty initial
                  {| type := Tag; data := []; defaultIconName := "tag" |}
                  {| _id := "5b31"; name := "Vue"; slug := "vue"; extends := [] |}
                  ltac:(right; left; reflexivity))).
Defined.

End Examples.

End FilterViewFacts.

(* ===================================================================== *)
(** * Further properties of the animated modal *)
(* ===================================================================== *)

Module ModalMore.

Import Modal ModalView ModalFacts.

Local Open Scope Q_scope.

#[local] Arguments receiveVisible : simpl never.
#[local] Arguments onShow : simpl never.
#[local] Arguments frame : simpl never.
#[local] Arguments render : simpl never.
#[local] Arguments rerender : simpl never.

Section Runs.

Variable easing : Q -> Q.

Lemma handle_propOpacity (e : event) (w w' : World) :
  handle easing e w = Some w' -> propOpacity (self w') = propOpacity (self w).
Proof.
  intro Hstep. unfold propOpacity. destruct e as [b | |]; simpl in Hstep.
  - injection Hstep as <-. cbn [self]. rewrite receiveVisible_props. reflexivity.
  - destruct (presented w); try discriminate Hstep.
    injection Hstep as <-. cbn [self].
    destruct (onShow_fields (self w)) as (Hp & _). rewrite Hp. reflexivity.
  - injection Hstep as <-. cbn [self]. rewrite frame_props. reflexivity.
Qed.

Lemma rerendered_propOpacity (w w1 : World) :
  propOpacity (self (rerendered w w1)) = propOpacity (self w1).
Proof.
  unfold propOpacity. destruct (rerendered_fields w w1) as (Hp & _).
  rewrite Hp. reflexivity.
Qed.

Lemma step_propOpacity (e : event) (w w' : World) :
  step easing e w = Some w' -> propOpacity (self w') = propOpacity (self w).
Proof.
  intro Hstep. destruct (step_handle easing e w w' Hstep) as (w1 & Hh & ->).
  rewrite rerendered_propOpacity. apply (handle_propOpacity e w w1 Hh).
Qed.

(** A point between two numbers of an interval is in the interval. *)
Lemma between (lo hi a b t : Q) :
  lo <= a /\ a <= hi -> lo <= b /\ b <= hi -> 0 <= t /\ t <= 1 ->
  lo <= a + t * (b - a) /\ a + t * (b - a) <= hi.
Proof.
  intros [Ha0 Ha1] [Hb0 Hb1] [Ht0 Ht1].
  setoid_replace (a + t * (b - a)) with ((1 - t) * a + t * b) by ring.
  assert (H1 : 0 <= (1 - t) * (a - lo)) by (apply Qmult_le_0_compat; lra).
  assert (H2 : 0 <= t * (b - lo)) by (apply Qmult_le_0_compat; lra).
  assert (H3 : 0 <= (1 - t) * (hi - a)) by (apply Qmult_le_0_compat; lra).
  assert (H4 : 0 <= t * (hi - b)) by (apply Qmult_le_0_compat; lra).
  split.
  - setoid_replace ((1 - t) * a + t * b)
      with (lo + ((1 - t) * (a - lo) + t * (b - lo))) by ring.
    lra.
  - setoid_replace ((1 - t) * a + t * b)
      with (hi - ((1 - t) * (hi - a) + t * (hi - b))) by ring.
    lra.
Qed.

Lemma handle_withinTarget (e : event) (w w' : World) :
  (forall x, 0 < x /\ x < 1 -> 0 <= easing x /\ easing x <= 1) ->
  0 <= propOpacity (self w) ->
  consistent w ->
  withinTarget w -> handle easing e w = Some w' -> withinTarget w'.
Proof.
  intros Hease Htarget [Hanim _] Hw Hstep. unfold withinTarget in *.
  rewrite (handle_propOpacity e w w' Hstep). cbv zeta in *.
  destruct Hw as [Hv Ha].
  destruct e as [b | |]; simpl in Hstep.
  - injection Hstep as <-. cbn [self].
    destruct (receiveVisible_fields b (self w))
      as [(_ & Hm & _) | [(_ & _ & Hm & _) | (_ & _ & Hm & _)]]; rewrite Hm.
    + split; assumption.
    + split; assumption.
    + cbn [value animation]. split; [exact Hv |].
      intros a E. injection E as <-. cbn [fromValue toValue].
      split; [exact Hv | split; [apply Qle_refl | exact Htarget]].
  - destruct (presented w); try discriminate Hstep.
    injection Hstep as <-. cbn [self].
    destruct (onShow_fields (self w)) as (_ & Hm & _). rewrite Hm.
    cbn [value animation]. split; [exact Hv |].
    intros a E. injection E as <-. cbn [fromValue toValue].
    split; [exact Hv | split; [exact Htarget | apply Qle_refl]].
  - injection Hstep as <-. cbn [self].
    destruct (animation (maskOpacity (self w))) as [a |] eqn:E.
    + destruct (Ha a eq_refl) as [Hfrom Hto].
      destruct (Hanim a eq_refl) as (Hd & He & _).
      destruct (Nat.lt_ge_cases (S (elapsed a)) 88) as [Hlt | Hge].
      * rewrite (frame_progress easing (self w) a E Hd Hlt).
        cbn [maskOpacity withMask value animation]. split.
        -- rewrite Qred_correct.
           apply between; [exact Hfrom | exact Hto |].
           apply Hease. apply progress_bounds. lia.
        -- intros a' E'. injection E' as <-. cbn [fromValue toValue]. split; assumption.
      * rewrite (frame_finish easing (self w) a E) by lia.
        match goal with |- context [callOpt ?c ?x] =>
          destruct (callOpt_fields c x) as (_ & Hm & _) end.
        rewrite Hm. cbn [maskOpacity withMask value animation].
        split; [exact Hto | intros a' E'; discriminate E'].
    + rewrite (frame_idle easing (self w) E), E. split; assumption.
Qed.

Lemma step_withinTarget (e : event) (w w' : World) :
  (forall x, 0 < x /\ x < 1 -> 0 <= easing x /\ easing x <= 1) ->
  0 <= propOpacity (self w) ->
  consistent w ->
  withinTarget w -> step easing e w = Some w' -> withinTarget w'.
Proof.
  intros Hease Htarget Hc Hw Hstep.
  destruct (step_handle easing e w w' Hstep) as (w1 & Hh & ->).
  pose proof (handle_withinTarget e w w1 Hease Htarget Hc Hw Hh) as [Hv Ha].
  unfold withinTarget in *. rewrite rerendered_propOpacity. cbv zeta in *.
  destruct (rerendered_fields w w1) as (_ & _ & Hval & _). rewrite Hval.
  split; [exact Hv |].
  intros a E. apply Ha. apply (rerender_animation (self w)). exact E.
Qed.

(** X9.  With an easing curve that stays between 0 and 1 and a
    configured opacity that is not negative, the mask opacity is between
    0 and the configured opacity in every state, whatever the order of
    requests, [onShow]s and time units. *)
Theorem mask_opacity_within_target (p : IModalProps) (es : list event) (w : World) :
  (forall x, 0 < x /\ x < 1 -> 0 <= easing x /\ easing x <= 1) ->
  0 <= propOpacity (constructor p) ->
  run easing es (mount p) = Some w ->
  propOpacity (self w) = propOpacity (constructor p)
  /\ 0 <= value (maskOpacity (self w))
  /\ value (maskOpacity (self w)) <= propOpacity (self w).
Proof.
  intros Hease Htarget Hrun.
  assert (H : (consistent w /\ propOpacity (self w) = propOpacity (constructor p))
              /\ withinTarget w).
  { apply (run_invariant easing
             (fun w => (consistent w /\ propOpacity (self w) = propOpacity (constructor p))
                       /\ withinTarget w)) with (es := es) (w := mount p).
    - intros e w0 w1 [[Hc Hp] Hw] Hstep. split; [split |].
      + apply (step_consistent easing e w0 w1 Hc Hstep).
      + rewrite (step_propOpacity e w0 w1 Hstep). exact Hp.
      + apply (step_withinTarget e w0 w1 Hease);
          [rewrite Hp; exact Htarget | exact Hc | exact Hw | exact Hstep].
    - split; [split; [apply mount_consistent | reflexivity] |].
      unfold withinTarget, mount. cbn [self]. cbv zeta.
      unfold constructor, handleVisibleChange in *.
      destruct (visible p); simpl in *.
      + split; [split; [apply Qle_refl | exact Htarget] | intros a E; discriminate E].
      + split; [split; [apply Qle_refl | exact Htarget] |].
        intros a E. injection E as <-. simpl.
        split; split; try apply Qle_refl; exact Htarget.
    - exact Hrun. }
  destruct H as [[_ Hp] [Hv _]]. split; [exact Hp | exact Hv].
Qed.

(** An [onShow] that finds a fade-out pending stops it: the modal is
    unmounted on the spot, the fade-in just started goes with the
    mask's view, and the mask stays where it stood. *)
Lemma onShow_cuts_short (w : World) :
  presented w = Presenting ->
  modalVisible (self w) = true ->
  unmountPending (self w) = true ->
  exists wS,
    step easing OnShow w = Some wS
    /\ props (self wS) = props (self w)
    /\ modalVisible (self wS) = false
    /\ maskOpacity (self wS)
       = {| value := value (maskOpacity (self w)); animation := None |}
    /\ presented wS = Hidden
    /\ clock wS = clock w
    /\ stable wS = true
    /\ step easing OnShow wS = None.
Proof.
  intros Hpr Hmv Hpend.
  destruct (onShow_fields (self w)) as (Hp & Hm & Hmv').
  rewrite Hpend in Hmv'.
  set (w1 := {| self := onShow (self w); presented := render Shown (onShow (self w));
                clock := clock w |}).
  assert (Hh : handle easing OnShow w = Some w1) by (cbn [handle]; rewrite Hpr; reflexivity).
  assert (Hpr1 : presented w1 = Hidden).
  { unfold w1; cbn [presented]. apply render_follows. exact Hmv'. }
  assert (Hmask : maskOpacity (rerender (self w) (self w1))
                  = {| value := value (maskOpacity (self w)); animation := None |}).
  { destruct (rerender_cases (self w) (self w1)) as [Hid | (_ & _ & H)].
    - exfalso. unfold rerender in Hid. unfold w1 in Hid; cbn [self] in Hid.
      rewrite Hmv, Hmv' in Hid. cbn [andb negb] in Hid.
      destruct (stopAnimation_fields (onShow (self w))) as (_ & _ & Ha & _).
      rewrite Hid, Hm in Ha. discriminate Ha.
    - rewrite H. unfold w1; cbn [self]. rewrite Hm. reflexivity. }
  destruct (rerendered_fields w w1) as (Hp2 & Hmv2 & _ & Hpr2 & Hc2).
  exists (rerendered w w1). unfold step. rewrite Hh.
  repeat apply conj.
  - reflexivity.
  - rewrite Hp2. exact Hp.
  - rewrite Hmv2. exact Hmv'.
  - exact Hmask.
  - rewrite Hpr2. exact Hpr1.
  - exact Hc2.
  - unfold stable. cbn [rerendered self presented]. rewrite Hmask, Hpr1. reflexivity.
  - cbn [handle rerendered presented]. rewrite Hpr1. reflexivity.
Qed.



(** X11.  Left alone for 88 time units, the modal has settled from any
    state it can be in: no animation is left in flight, and if
    [visible] is false it is unmounted, whether the fade-out got to run
    or was cut short earlier. *)
Theorem settles_within_88 (p : IModalProps) (es : list event) (w : World) :
  run easing es (mount p) = Some w ->
  exists w',
    run easing (frames 88) w = Some w'
    /\ animation (maskOpacity (self w')) = None
    /\ props (self w') = props (self w)
    /\ clock w' = (clock w + 88)%nat
    /\ (visible (props (self w)) = false ->
        modalVisible (self w') = false /\ presented w' = Hidden).
Proof.
  intro Hrun.
  pose proof (run_consistent easing es _ _ (mount_consistent p) Hrun) as [Hanim Hnat].
  assert (Hcl : closing w).
  { apply (run_invariant easing closing (step_closing easing) es _ _ (mount_closing p) Hrun). }
  unfold closing, unmountPending in Hcl.
  destruct (animation (maskOpacity (self w))) as [a |] eqn:Ha.
  - destruct (Hanim a eq_refl) as (Hd & He & _).
    destruct (run_frames_finish easing w a Hnat Ha Hd He)
      as (w1 & Hrun1 & Hp1 & Hmv1 & Hm1 & Hpr1 & Hc1).
    assert (Hnat1 : presented w1 = Hidden <-> modalVisible (self w1) = false).
    { rewrite Hpr1, Hmv1. destruct (onEnd a); [tauto | exact Hnat]. }
    assert (Ha1 : animation (maskOpacity (self w1)) = None) by (rewrite Hm1; reflexivity).
    exists {| self := self w1; presented := presented w1;
              clock := (clock w1 + elapsed a)%nat |}.
    replace 88%nat with ((88 - elapsed a) + elapsed a)%nat at 1 by lia.
    unfold frames. rewrite repeat_app. fold (frames (88 - elapsed a)) (frames (elapsed a)).
    rewrite run_app, Hrun1, (run_frames_idle easing (elapsed a) w1 Hnat1 Ha1).
    cbn [self presented clock]. repeat apply conj; try assumption; try reflexivity.
    + lia.
    + intro Hv. rewrite Hpr1, Hmv1.
      destruct (onEnd a); [split; reflexivity |].
      destruct (Hcl Hv) as [H | H]; [| discriminate H].
      split; [exact H | apply Hnat; exact H].
  - exists {| self := self w; presented := presented w; clock := (clock w + 88)%nat |}.
    rewrite (run_frames_idle easing 88 w Hnat Ha).
    cbn [self presented clock]. repeat apply conj; try assumption; try reflexivity.
    intro Hv. destruct (Hcl Hv) as [H | H]; [| discriminate H].
    split; [exact H | apply Hnat; exact H].
Qed.

(** X12.  A modal constructed with [visible] false starts a fade-out
    on the spot.  If [visible] turns true before its 88 time units are
    over, the modal is mounted but does not stay: that fade-out's
    callback unmounts it again, at time 88 when the fade-out completes,
    or earlier if the platform's [onShow] comes first and stops it.
    Either way the modal ends settled and unmounted with [visible]
    true, and no further [onShow] can come. *)
Theorem opening_within_88_of_construction_is_undone (p : IModalProps) (k : nat) :
  visible p = false ->
  (k < 88)%nat ->
  exists w1 w,
    run easing (frames k ++ [SetVisible true]) (mount p) = Some w1
    /\ modalVisible (self w1) = true
    /\ (forall j, (k + j < 88)%nat ->
          exists wj wS,
            run easing (frames j) w1 = Some wj
            /\ modalVisible (self wj) = true
            /\ step easing OnShow wj = Some wS
            /\ clock wS = (k + j)%nat
            /\ visible (props (self wS)) = true
            /\ modalVisible (self wS) = false
            /\ stable wS = true
            /\ step easing OnShow wS = None)
    /\ run easing (frames (88 - k)) w1 = Some w
    /\ clock w = 88%nat
    /\ visible (props (self w)) = true
    /\ modalVisible (self w) = false
    /\ stable w = true
    /\ step easing OnShow w = None.
Proof.
  intros Hv Hk. destruct p as [v o]. cbn [visible] in Hv. subst v.
  set (p := {| visible := false; opacity := o |}).
  set (a0 := {| fromValue := 0; toValue := 0; duration := 88; elapsed := 0;
                onEnd := Some UnmountAfterFade |}).
  assert (Hnat0 : presented (mount p) = Hidden <-> modalVisible (self (mount p)) = false)
    by (split; reflexivity).
  destruct (run_frames_progress easing k (mount p) a0 Hnat0 eq_refl eq_refl
              ltac:(unfold a0; cbn [elapsed]; lia))
    as (wk & Hrunk & Hpk & Hmvk & Hprk & Hck & Hak & _).
  cbn [a0 fromValue toValue duration elapsed onEnd Nat.add] in Hak.
  set (ak := {| fromValue := 0; toValue := 0; duration := 88; elapsed := k;
                onEnd := Some UnmountAfterFade |}) in *.
  set (w1 := {| self := receiveVisible true (self wk);
                presented := render (presented wk) (receiveVisible true (self wk));
                clock := clock wk |}).
  assert (H1 : modalVisible (self w1) = true
               /\ animation (maskOpacity (self w1)) = Some ak).
  { unfold w1; cbn [self].
    destruct (receiveVisible_fields true (self wk))
      as [(Hb & _) | [(_ & _ & Hm & Hmv') | (Hb & _)]].
    - rewrite Hpk in Hb. discriminate Hb.
    - rewrite Hm, Hmv'. split; [reflexivity | exact Hak].
    - discriminate Hb. }
  destruct H1 as [Hmv1 Ha1].
  assert (Hstep1 : step easing (SetVisible true) wk = Some w1)
    by (apply step_of_handle; [reflexivity | right; left; exact Hmv1]).
  assert (Hp1 : props (self w1) = {| visible := true; opacity := o |}).
  { unfold w1; cbn [self]. rewrite receiveVisible_props, Hpk. reflexivity. }
  assert (Hpr1 : presented w1 = Presenting).
  { unfold w1; cbn [presented]. unfold w1 in Hmv1; cbn [self] in Hmv1.
    unfold render. rewrite Hmv1, Hprk. reflexivity. }
  assert (Hc1 : clock w1 = k).
  { unfold w1; cbn [clock]. rewrite Hck. reflexivity. }
  assert (Hnat1 : presented w1 = Hidden <-> modalVisible (self w1) = false).
  { rewrite Hpr1, Hmv1. split; discriminate. }
  destruct (run_frames_finish easing w1 ak Hnat1 Ha1 eq_refl ltac:(unfold ak; cbn [elapsed]; lia))
    as (w & Hrun & Hp & Hmv & Hm & Hpr & Hc).
  cbn [ak elapsed onEnd toValue] in Hrun, Hmv, Hm, Hpr, Hc.
  exists w1, w. repeat apply conj; try assumption.
  - rewrite run_app, Hrunk. cbn [run]. rewrite Hstep1. reflexivity.
  - intros j Hj.
    destruct (run_frames_progress easing j w1 ak Hnat1 Ha1 eq_refl
                ltac:(unfold ak; cbn [elapsed]; lia))
      as (wj & Hrunj & Hpj & Hmvj & Hprj & Hcj & Haj & _).
    destruct (onShow_cuts_short wj) as (wS & S1 & S2 & S3 & _ & _ & S4 & S5 & S6).
    + rewrite Hprj. exact Hpr1.
    + rewrite Hmvj. exact Hmv1.
    + unfold unmountPending. rewrite Haj. reflexivity.
    + exists wj, wS. repeat apply conj; try assumption.
      * rewrite Hmvj. exact Hmv1.
      * rewrite S4, Hcj, Hc1. reflexivity.
      * rewrite S2, Hpj, Hp1. reflexivity.
  - rewrite Hc, Hc1. lia.
  - rewrite Hp, Hp1. reflexivity.
  - unfold stable. rewrite Hm, Hpr. reflexivity.
  - unfold step. cbn [handle]. rewrite Hpr. reflexivity.
Qed.

End Runs.

(** The linear curve, target 0.3, a fade-in cut short half way. *)
Lemma mask_opacity_within_target_witness :
  exists w,
    run linear (frames 88 ++ [SetVisible true; OnShow] ++ frames 44 ++ [SetVisible false]
                ++ frames 10)
        (mount {| visible := false; opacity := Some (3 # 10) |}) = Some w
    /\ 0 <= value (maskOpacity (self w))
    /\ value (maskOpacity (self w)) <= 3 # 10.
Proof.
  eexists. split; [vm_compute; reflexivity |].
  apply (proj2 (mask_opacity_within_target linear
                  {| visible := false; opacity := Some (3 # 10) |}
                  (frames 88 ++ [SetVisible true; OnShow] ++ frames 44
                   ++ [SetVisible false] ++ frames 10) _
                  ltac:(intros x [H0 H1]; unfold linear; split; apply Qlt_le_weak; assumption)
                  ltac:(vm_compute; discriminate)
                  ltac:(vm_compute; reflexivity))).
Defined.


(** A modal closed while [onShow] is still to come. *)
Lemma settles_within_88_witness :
  exists w w',
    run linear (frames 88 ++ [SetVisible true] ++ frames 3 ++ [SetVisible false]
                ++ frames 5)
        (mount {| visible := false; opacity := None |}) = Some w
    /\ run linear (frames 88) w = Some w'
    /\ animation (maskOpacity (self w')) = None
    /\ modalVisible (self w') = false.
Proof.
  eexists.
  destruct (settles_within_88 linear {| visible := false; opacity := None |}
              (frames 88 ++ [SetVisible true] ++ frames 3 ++ [SetVisible false]
               ++ frames 5) _
              ltac:(vm_compute; reflexivity))
    as (w' & H1 & H2 & _ & _ & H3).
  exists w'. split; [vm_compute; reflexivity |].
  split; [exact H1 |]. split; [exact H2 |]. apply H3. reflexivity.
Defined.

(** Opened 10 time units after construction, with [onShow] coming 5
    time units later or not at all. *)
Lemma opening_within_88_of_construction_is_undone_witness :
  exists w1 wS w,
    run linear (frames 10 ++ [SetVisible true]) (mount {| visible := false; opacity := None |})
    = Some w1
    /\ run linear (frames 5 ++ [OnShow]) w1 = Some wS
    /\ clock wS = 15%nat
    /\ modalVisible (self wS) = false
    /\ run linear (frames 78) w1 = Some w
    /\ visible (props (self w)) = true
    /\ modalVisible (self w) = false.
Proof.
  destruct (opening_within_88_of_construction_is_undone linear
              {| visible := false; opacity := None |} 10 eq_refl ltac:(lia))
    as (w1 & w & H1 & _ & Hshow & H2 & _ & H3 & H4 & _).
  destruct (Hshow 5%nat ltac:(lia)) as (wj & wS & S1 & _ & S2 & S3 & _ & S4 & _).
  exists w1, wS, w. repeat apply conj; try assumption.
  rewrite run_app, S1. cbn [run]. rewrite S2. reflexivity.
Defined.

End ModalMore.

(* ===================================================================== *)
(** * The filter screen: store and modal together *)
(* ===================================================================== *)

Module ScreenFacts.

Import Filter FilterView.
Import Modal ModalView ModalFacts.

Local Open Scope Q_scope.

#[local] Arguments receiveVisible : simpl never.
#[local] Arguments onShow : simpl never.
#[local] Arguments frame : simpl never.
#[local] Arguments render : simpl never.
#[local] Arguments rerender : simpl never.

Section Runs.

Variable easing : Q -> Q.

(** What a screen step is for the modal: one event of its own. *)
Lemma step_modal (i : input) (sc sc' : Screen) :
  FilterView.step easing i sc = Some sc' ->
  exists e,
    Modal.step easing e (modal sc) = Some (modal sc')
    /\ match e with
       | SetVisible b => Filter.modalVisible (store sc') = b
       | _ => store sc' = store sc
       end.
Proof.
  unfold FilterView.step, act, platform. intro H.
  destruct i as [| k n | | | |].
  - eexists (SetVisible _).
    destruct (Modal.step easing (SetVisible _) (modal sc)) as [w |] eqn:E; [| discriminate H].
    injection H as <-. split; [exact E | reflexivity].
  - destruct (nth_error (filters (store sc)) k) as [filter |]; [| discriminate H].
    destruct (nth_error (data filter) n) as [item |]; [| discriminate H].
    destruct (Modal.modalVisible (self (modal sc))
              && negb (isActive (store sc) filter item)); [| discriminate H].
    eexists (SetVisible _).
    destruct (Modal.step easing (SetVisible _) (modal sc)) as [w |] eqn:E; [| discriminate H].
    injection H as <-. split; [exact E | reflexivity].
  - destruct (Modal.modalVisible (self (modal sc))); [| discriminate H].
    eexists (SetVisible _).
    destruct (Modal.step easing (SetVisible _) (modal sc)) as [w |] eqn:E; [| discriminate H].
    injection H as <-. split; [exact E | reflexivity].
  - destruct (Modal.modalVisible (self (modal sc))); [| discriminate H].
    eexists (SetVisible _).
    destruct (Modal.step easing (SetVisible _) (modal sc)) as [w |] eqn:E; [| discriminate H].
    injection H as <-. split; [exact E | reflexivity].
  - exists OnShow.
    destruct (Modal.step easing OnShow (modal sc)) as [w |] eqn:E; [| discriminate H].
    injection H as <-. split; [reflexivity | reflexivity].
  - exists Frame.
    destruct (Modal.step easing Frame (modal sc)) as [w |] eqn:E; [| discriminate H].
    injection H as <-. split; [reflexivity | reflexivity].
Qed.

Lemma step_visible_props (e : event) (w w' : World) :
  Modal.step easing e w = Some w' ->
  opacity (props (self w')) = opacity (props (self w))
  /\ visible (props (self w'))
     = match e with SetVisible b => b | _ => visible (props (self w)) end.
Proof.
  intro Hstep. destruct (step_handle easing e w w' Hstep) as (w1 & H & ->).
  destruct (rerendered_fields w w1) as (Hp1 & _). rewrite Hp1.
  destruct e as [b | |]; simpl in H.
  - injection H as <-. cbn [self]. rewrite receiveVisible_props. split; reflexivity.
  - destruct (presented w); try discriminate H. injection H as <-. cbn [self].
    destruct (onShow_fields (self w)) as (Hp & _). rewrite Hp. split; reflexivity.
  - injection H as <-. cbn [self]. rewrite frame_props. split; reflexivity.
Qed.

Lemma run_screen_invariant (ins : list input) : forall (sc sc' : Screen) (p : IModalProps),
  (exists es, Modal.run easing es (mount p) = Some (modal sc)) ->
  visible (props (self (modal sc))) = Filter.modalVisible (store sc) ->
  FilterView.run easing ins sc = Some sc' ->
  (exists es, Modal.run easing es (mount p) = Some (modal sc'))
  /\ visible (props (self (modal sc'))) = Filter.modalVisible (store sc')
  /\ opacity (props (self (modal sc'))) = opacity (props (self (modal sc))).
Proof.
  induction ins as [| i ins IH]; intros sc sc' p Hreach Hsync Hrun; simpl in Hrun.
  - injection Hrun as <-. repeat split; assumption.
  - destruct (FilterView.step easing i sc) as [sc1 |] eqn:Hstep; [| discriminate Hrun].
    destruct (step_modal i sc sc1 Hstep) as (e & He & Hstore).
    destruct (step_visible_props e _ _ He) as [Ho Hv].
    destruct (IH sc1 sc' p) as (Hr & Hs & Ho').
    + destruct Hreach as [es Hes]. exists (es ++ [e]).
      rewrite run_app, Hes. cbn [Modal.run]. rewrite He. reflexivity.
    + rewrite Hv. destruct e as [b | |].
      * symmetry. exact Hstore.
      * rewrite Hstore. exact Hsync.
      * rewrite Hstore. exact Hsync.
    + exact Hrun.
    + repeat split; [exact Hr | exact Hs | rewrite Ho'; exact Ho].
Qed.

Lemma screen_reach (s : Store) (ins : list input) (sc : Screen) :
  FilterView.run easing ins (firstRender s) = Some sc ->
  visible (props (self (modal sc))) = Filter.modalVisible (store sc)
  /\ propOpacity (self (modal sc)) = 1 # 2
  /\ exists es, Modal.run easing es (mount (modalProps s)) = Some (modal sc).
Proof.
  intro Hrun.
  destruct (run_screen_invariant ins (firstRender s) sc (modalProps s)) as (Hr & Hs & Ho).
  - exists []. reflexivity.
  - unfold firstRender, mount, constructor, handleVisibleChange, modalProps.
    cbn [modal self visible store].
    destruct (Filter.modalVisible s); reflexivity.
  - exact Hrun.
  - repeat split; [exact Hs | | exact Hr].
    unfold propOpacity. rewrite Ho.
    unfold firstRender, mount, constructor, handleVisibleChange, modalProps.
    cbn [modal self visible]. destruct (Filter.modalVisible s); reflexivity.
Qed.

(** X13.  On the filter screen the modal's [visible] prop is the
    store's [modalVisible] flag in every state, its opacity stays
    unconfigured, so that its target is 0.5, and the modal only ever
    sees events of its own kind: every state of the screen's modal is a
    state of the modal alone. *)
Theorem screen_modal_follows_store (s : Store) (ins : list input) (sc : Screen) :
  FilterView.run easing ins (firstRender s) = Some sc ->
  visible (props (self (modal sc))) = Filter.modalVisible (store sc)
  /\ propOpacity (self (modal sc)) = 1 # 2
  /\ exists es, Modal.run easing es (mount (modalProps s)) = Some (modal sc).
Proof. apply screen_reach. Qed.

Lemma run_cons (i : input) (ins : list input) (sc sc' : Screen) :
  FilterView.step easing i sc = Some sc' ->
  FilterView.run easing (i :: ins) sc = FilterView.run easing ins sc'.
Proof. intro H. cbn [FilterView.run]. rewrite H. reflexivity. Qed.

Lemma run_ticks (n : nat) : forall (sc : Screen) (w : World),
  Modal.run easing (frames n) (modal sc) = Some w ->
  FilterView.run easing (ticks n) sc = Some {| store := store sc; modal := w |}.
Proof.
  induction n as [| n IH]; intros sc w H.
  - simpl in H. injection H as <-. destruct sc; reflexivity.
  - change (frames (S n)) with (Frame :: frames n) in H.
    change (ticks (S n)) with (Tick :: ticks n).
    cbn [Modal.run] in H. cbn [FilterView.run FilterView.step]. unfold platform.
    destruct (Modal.step easing Frame (modal sc)) as [w1 |]; [| discriminate H].
    apply (IH {| store := store sc; modal := w1 |} w H).
Qed.


(** X15.  From rest, opening the filter mounts the modal at once.
    However long the platform then takes to report [onShow], the mask
    waits at 0; 88 time units after that [onShow] the mask is at 0.5
    with nothing in flight: the modal is open, its buttons are there to
    be pressed, and the store is as it was but for the flag. *)
Theorem opening_shows_the_filter (s : Store) (ins : list input) (sc : Screen) (d : nat) :
  FilterView.run easing ins (firstRender s) = Some sc ->
  resting (modal sc) ->
  exists sc1 scd sc2,
    FilterView.step easing Open sc = Some sc1
    /\ Modal.modalVisible (self (modal sc1)) = true
    /\ FilterView.run easing (ticks d) sc1 = Some scd
    /\ Modal.modalVisible (self (modal scd)) = true
    /\ maskOpacity (self (modal scd)) = {| value := 0; animation := None |}
    /\ FilterView.run easing (PlatformShown :: ticks 88) scd = Some sc2
    /\ store sc2 = updateVisibleState true (store sc)
    /\ opened (modal sc2)
    /\ maskOpacity (self (modal sc2)) = {| value := 1 # 2; animation := None |}
    /\ clock (modal sc2) = (clock (modal sc) + d + 88)%nat.
Proof.
  intros Hrun (Hv & Hmv & Hm & Hpr).
  destruct (screen_reach s ins sc Hrun) as (_ & Hop & _).
  set (w1 := {| self := receiveVisible true (self (modal sc));
                presented := render (presented (modal sc))
                               (receiveVisible true (self (modal sc)));
                clock := clock (modal sc) |}).
  assert (H1 : Modal.modalVisible (self w1) = true
               /\ maskOpacity (self w1) = {| value := 0; animation := None |}
               /\ presented w1 = Presenting).
  { unfold w1; cbn [self presented].
    destruct (receiveVisible_fields true (self (modal sc)))
      as [(Hb & _) | [(_ & _ & Hm1 & Hmv1) | (Hb & _)]]; try congruence.
    rewrite Hm1, Hmv1, Hm. repeat split.
    unfold render. rewrite Hmv1, Hpr. reflexivity. }
  destruct H1 as (Hmv1 & Hm1 & Hpr1).
  assert (Hstep1 : Modal.step easing (SetVisible true) (modal sc) = Some w1)
    by (apply step_of_handle; [reflexivity | right; left; exact Hmv1]).
  assert (Hnat1 : presented w1 = Hidden <-> Modal.modalVisible (self w1) = false).
  { rewrite Hpr1, Hmv1. split; discriminate. }
  set (wd := {| self := self w1; presented := presented w1; clock := (clock w1 + d)%nat |}).
  assert (Hrund : Modal.run easing (frames d) w1 = Some wd)
    by (apply run_frames_idle; [exact Hnat1 | rewrite Hm1; reflexivity]).
  set (w2 := {| self := onShow (self wd); presented := render Shown (onShow (self wd));
                clock := clock wd |}).
  set (a2 := {| fromValue := 0; toValue := 1 # 2; duration := 88; elapsed := 0;
                onEnd := None |}).
  assert (Hp1 : props (self w1)
                = {| visible := true; opacity := opacity (props (self (modal sc))) |})
    by (unfold w1; cbn [self]; apply receiveVisible_props).
  assert (H2 : props (self w2) = props (self w1)
               /\ Modal.modalVisible (self w2) = true
               /\ animation (maskOpacity (self w2)) = Some a2).
  { unfold w2, wd; cbn [self].
    destruct (onShow_fields (self w1)) as (Hp2 & Hm2 & Hmv2).
    rewrite Hp2, Hm2, Hmv2. unfold unmountPending. rewrite Hm1, Hmv1.
    cbn [value animation]. repeat split.
    unfold a2. do 2 f_equal. unfold propOpacity in *. rewrite Hp1. exact Hop. }
  destruct H2 as (Hp2 & Hmv2 & Ha2).
  assert (Hstep2 : Modal.step easing OnShow wd = Some w2).
  { apply step_of_handle; [| right; left; exact Hmv2].
    cbn [handle]. unfold wd at 1; cbn [presented]. rewrite Hpr1. reflexivity. }
  assert (Hnat2 : presented w2 = Hidden <-> Modal.modalVisible (self w2) = false).
  { unfold w2 at 1; cbn [presented]. apply render_follows. }
  destruct (run_frames_finish easing w2 a2 Hnat2 Ha2 eq_refl ltac:(unfold a2; cbn [elapsed]; lia))
    as (w3 & Hrun3 & Hp3 & Hmv3 & Hm3 & _ & Hc3).
  cbn [a2 elapsed onEnd toValue] in Hrun3, Hmv3, Hm3, Hc3.
  change (88 - 0)%nat with 88%nat in *.
  exists {| store := updateVisibleState true (store sc); modal := w1 |},
         {| store := updateVisibleState true (store sc); modal := wd |},
         {| store := updateVisibleState true (store sc); modal := w3 |}.
  repeat apply conj.
  - unfold FilterView.step, act.
    change (Filter.modalVisible (updateVisibleState true (store sc))) with true.
    rewrite Hstep1. reflexivity.
  - exact Hmv1.
  - apply (run_ticks d {| store := updateVisibleState true (store sc); modal := w1 |} wd Hrund).
  - exact Hmv1.
  - exact Hm1.
  - rewrite (run_cons PlatformShown (ticks 88) _
               {| store := updateVisibleState true (store sc); modal := w2 |}).
    + apply (run_ticks 88 {| store := updateVisibleState true (store sc); modal := w2 |}
               w3 Hrun3).
    + unfold FilterView.step, platform. cbn [modal store]. rewrite Hstep2. reflexivity.
  - reflexivity.
  - cbn [modal]. rewrite Hp3, Hp2, Hp1. reflexivity.
  - cbn [modal]. rewrite Hmv3. exact Hmv2.
  - cbn [modal]. unfold unmountPending. rewrite Hm3. reflexivity.
  - exact Hm3.
  - cbn [modal]. rewrite Hc3. unfold w2, wd, w1; cbn [clock]. reflexivity.
Qed.

End Runs.

(** The sample store's screen: settle, open, let the fade-in finish. *)
Lemma screen_modal_follows_store_witness :
  exists sc,
    FilterView.run linear (ticks 88 ++ [Open; PlatformShown] ++ ticks 30)
      (firstRender sampleStore) = Some sc
    /\ visible (props (self (modal sc))) = Filter.modalVisible (store sc)
    /\ propOpacity (self (modal sc)) = 1 # 2.
Proof.
  eexists. split; [vm_compute; reflexivity |].
  destruct (screen_modal_follows_store linear sampleStore
              (ticks 88 ++ [Open; PlatformShown] ++ ticks 30) _
              ltac:(vm_compute; reflexivity)) as (H1 & H2 & _).
  split; [exact H1 | exact H2].
Defined.


(** Opening the sample filter once construction has settled, the
    platform taking 300 time units to show it. *)
Lemma opening_shows_the_filter_witness :
  exists sc sc1 scd sc2,
    FilterView.run linear (ticks 88) (firstRender sampleStore) = Some sc
    /\ FilterView.step linear Open sc = Some sc1
    /\ FilterView.run linear (ticks 300) sc1 = Some scd
    /\ FilterView.run linear (PlatformShown :: ticks 88) scd = Some sc2
    /\ opened (modal sc2)
    /\ maskOpacity (self (modal sc2)) = {| value := 1 # 2; animation := None |}.
Proof.
  eexists.
  destruct (opening_shows_the_filter linear sampleStore (ticks 88) _ 300
              ltac:(vm_compute; reflexivity)
              ltac:(repeat split))
    as (sc1 & scd & sc2 & H1 & _ & H2 & _ & _ & H3 & _ & H4 & H5 & _).
  exists sc1, scd, sc2.
  split; [vm_compute; reflexivity |].
  split; [exact H1 |]. split; [exact H2 |]. split; [exact H3 |]. split; [exact H4 | exact H5].
Defined.

End ScreenFacts.
